(** * Gmail message retrieval: batched fetch, paginated query, sender history

    A shallow embedding of [apps/web/utils/gmail/message.ts].

    The TypeScript module is asynchronous and talks to three collaborators
    that live outside of it: the Gmail HTTP API (through [getBatch] and
    [gmail.users.messages.list]), the logger and [sleep].  The embedding
    threads an explicit [World] through every function: the state of the
    remote mailbox plus the trace of everything the code did to the outside
    (requests, log entries, delays).  Exceptions are a [Throw] result, and a
    computation that runs out of fuel (only the pagination loop can) has no
    result at all. *)

From Stdlib Require Import ZArith Lia Ascii.
From stdpp Require Import base option list strings gmap pretty.

Local Open Scope string_scope.
Local Open Scope list_scope.
Local Open Scope Z_scope.

(** ** Data model *)

(** A message id as the code manipulates it at run time: a string, or
    [undefined] when it was read past the end of an array or is absent from
    a list response. *)
Definition MessageId : Type := option string.
Abbreviation undefined := (@None _) (only parsing).

(** One positional result of a batch request: the raw message, or the
    [{ error: { code, message } }] object recognised by [isBatchError]. *)
Inductive BatchItem (Raw : Type) : Type :=
  | BatchMessage (message : Raw)
  | BatchError (code : Z) (message : string).
Arguments BatchMessage {Raw} message.
Arguments BatchError {Raw} code message.

(** A JavaScript [Error]. *)
Inductive JsError : Type := Error (message : string).

Inductive result (A : Type) : Type :=
  | Ok (a : A)
  | Throw (e : JsError).
Arguments Ok {A} a.
Arguments Throw {A} e.

(** The parameters of [gmail.users.messages.list]. *)
Record ListParams : Type := mkListParams {
  userId : string;
  lp_maxResults : option Z;
  q : option string;
  lp_pageToken : option string;
  labelIds : option (list string);
}.

(** An entry of a list response; only its [id] is read. *)
Record MessageRef : Type := mkMessageRef { id : option string }.

(** The [data] of a list response. *)
Record ListResponse : Type := mkListResponse {
  messages : option (list MessageRef);
  nextPageToken : option string;
}.

(** Structured fields of a log entry. *)
Inductive LogFields : Type :=
  | RetryFields (messageIds : list MessageId) (retryCount : Z)
  | BatchErrorFields (code : Z) (error : string)
  | MissingFields (missingMessageIds : list MessageId).

Inductive LogLevel : Type := LevelError | LevelInfo.

(** Everything the module does to the outside world, in order. *)
Inductive Event : Type :=
  | EvGetBatch (ids : list MessageId) (endpoint accessToken : string)
  | EvList (params : ListParams)
  | EvSleep (ms : Z)
  | EvLog (level : LogLevel) (message : string) (fields : LogFields).

(** ** External collaborators

    What [message.ts] imports or receives: the parser, the batch transport,
    the Gmail client, [extractDomainFromEmail], and the rendering of a
    [Date] as epoch seconds inside a query string. *)
Class Externals : Type := {
  RawMessage : Type;
  ParsedMessage : Type;
  Remote : Type;
  Date : Type;
  (** [parseMessage] of [@/utils/mail], pure and total. *)
  parseMessage : RawMessage → ParsedMessage;
  (** [getBatch(ids, endpoint, accessToken)] of [@/utils/gmail/batch]. *)
  getBatch : list MessageId → string → string → Remote →
             result (list (BatchItem RawMessage)) * Remote;
  (** [gmail.users.messages.list(params)], returning [response.data]. *)
  users_messages_list : ListParams → Remote → result ListResponse * Remote;
  (** [extractDomainFromEmail] of [@/utils/email]. *)
  extractDomainFromEmail : string → option string;
  (** The text of [+new Date(date) / 1000] inside a template literal. *)
  dateInSeconds : Date → string;
}.

(** ** The effect monad *)

Section Model.
Context `{Ext : Externals}.

Record World : Type := mkWorld {
  remote : Remote;
  trace : list Event;
}.

(** [None] stands for a computation that ran out of fuel. *)
Definition M (A : Type) : Type := World → option (result A * World).

#[export] Instance M_ret : MRet M := λ A a w, Some (Ok a, w).

#[export] Instance M_bind : MBind M := λ A B f m w,
  match m w with
  | None => None
  | Some (Throw e, w') => Some (Throw e, w')
  | Some (Ok a, w') => f a w'
  end.

Definition throw {A} (e : JsError) : M A := λ w, Some (Throw e, w).

Definition diverge {A} : M A := λ _, None.

Definition emit (e : Event) : M unit :=
  λ w, Some (Ok tt, mkWorld (remote w) (trace w ++ [e])).

Definition logger_error (message : string) (fields : LogFields) : M unit :=
  emit (EvLog LevelError message fields).

Definition logger_info (message : string) (fields : LogFields) : M unit :=
  emit (EvLog LevelInfo message fields).

Definition sleep (ms : Z) : M unit := emit (EvSleep ms).

(** A call of an external primitive: the request is recorded, then the
    remote answers and moves to its next state. *)
Definition call {A} (e : Event) (f : Remote → result A * Remote) : M A :=
  λ w, let '(r, rm) := f (remote w) in
       Some (r, mkWorld rm (trace w ++ [e])).

Definition getBatch_call (ids : list MessageId) (endpoint accessToken : string)
  : M (list (BatchItem RawMessage)) :=
  call (EvGetBatch ids endpoint accessToken) (getBatch ids endpoint accessToken).

Definition list_call (params : ListParams) : M ListResponse :=
  call (EvList params) (users_messages_list params).

(** ** JavaScript built-ins used by the module *)

(** [array[i]]: [undefined] past the end. *)
Definition js_index (a : list MessageId) (i : nat) : MessageId :=
  match a !! i with
  | Some x => x
  | None => undefined
  end.

(** [Set.prototype.add]; a [Set] is kept as the list of its members in
    insertion order, which is what [Array.from] returns. *)
Definition Set_add (x : MessageId) (s : list MessageId) : list MessageId :=
  if decide (x ∈ s) then s else s ++ [x].

(** [.filter(isDefined)] *)
Definition filter_isDefined {A} (l : list (option A)) : list A := omap (λ x, x) l.

(** Truthiness of an optional string: [undefined], [null] and [""] are falsy. *)
Definition truthy (s : option string) : bool :=
  match s with
  | Some s => negb (String.eqb s "")
  | None => false
  end.

(** ** [getMessagesBatch] *)

(** The callback of [batch.map((message, i) => ...)], run over the batch
    from position [i]; the [missing] set it mutates is passed along. *)
Fixpoint mapBatch (messageIds : list MessageId) (i : nat)
    (batch : list (BatchItem RawMessage)) (missing : list MessageId)
  : M (list (option ParsedMessage) * list MessageId) :=
  match batch with
  | [] => mret ([], missing)
  | BatchError code message :: rest =>
      logger_error "Error fetching message" (BatchErrorFields code message);;
      '(out, missing') ← mapBatch messageIds (S i) rest
                           (Set_add (js_index messageIds i) missing);
      mret (None :: out, missing')
  | BatchMessage message :: rest =>
      '(out, missing') ← mapBatch messageIds (S i) rest missing;
      mret (Some (parseMessage message) :: out, missing')
  end.

Definition batch_endpoint : string := "/gmail/v1/users/me/messages".

(** The recursion of [getMessagesBatch] on [retryCount], with [fuel]
    bounding its depth. *)
Fixpoint getMessagesBatch_rec (fuel : nat) (messageIds : list MessageId)
    (accessToken : string) (retryCount : Z) : M (list ParsedMessage) :=
  match fuel with
  | O => diverge
  | S fuel' =>
      if retryCount >? 3 then
        logger_error "Too many retries" (RetryFields messageIds retryCount);;
        mret []
      else if Z.of_nat (length messageIds) >? 100 then
        throw (Error "Too many messages. Max 1000")
      else
        batch ← getBatch_call messageIds batch_endpoint accessToken;
        '(mapped, missingMessageIds) ← mapBatch messageIds 0 batch [];
        let messages := filter_isDefined mapped in
        if Z.of_nat (length missingMessageIds) >? 0 then
          logger_info "Missing messages" (MissingFields missingMessageIds);;
          let nextRetryCount := retryCount + 1 in
          sleep (1000 * nextRetryCount);;
          missingMessages ← getMessagesBatch_rec fuel' missingMessageIds
                              accessToken nextRetryCount;
          mret (messages ++ missingMessages)
        else mret messages
  end.

(** [getMessagesBatch(messageIds, accessToken, retryCount)].  The recursion
    is at most [4 - retryCount] deep before the [retryCount > 3] exit, so
    this much fuel is never used up ([getMessagesBatch_rec_fuel] below). *)
Definition getMessagesBatch (messageIds : list MessageId) (accessToken : string)
    (retryCount : Z) : M (list ParsedMessage) :=
  getMessagesBatch_rec (S (Z.to_nat (4 - retryCount))) messageIds accessToken
    retryCount.

(** ** Paginated query *)

(** [getMessages(gmail, options)] *)
Definition getMessages (query : option string) (maxResults : option Z)
    (pageToken : option string) (labels : option (list string))
  : M ListResponse :=
  list_call {| userId := "me"; lp_maxResults := maxResults; q := query;
               lp_pageToken := pageToken; labelIds := labels |}.

(** The object returned by [queryBatchMessages]. *)
Record Page : Type := mkPage {
  page_messages : list ParsedMessage;
  page_nextPageToken : option string;
}.

(** [queryBatchMessages(gmail, accessToken, { query, maxResults = 20, pageToken })].
    The trailing [|| []] of the source never fires, an array being truthy. *)
Definition queryBatchMessages (accessToken : string) (query : option string)
    (maxResults : option Z) (pageToken : option string) : M Page :=
  let maxResults := default 20 maxResults in
  if maxResults >? 20 then
    throw (Error "Max results must be 20 or Google will rate limit us and return 429 errors.")
  else
    response ← getMessages query (Some maxResults) pageToken undefined;
    match messages response with
    | None => mret {| page_messages := []; page_nextPageToken := undefined |}
    | Some refs =>
        let messageIds := filter_isDefined (map id refs) in
        parsed ← getMessagesBatch (map Some messageIds) accessToken 0;
        mret {| page_messages := parsed;
                page_nextPageToken := nextPageToken response |}
    end.

(** The [do ... while] loop of [queryBatchMessagesPages]; [acc] and
    [pageToken] are the loop variables [messages] and [nextPageToken].  The
    loop has no bound of its own, hence the fuel. *)
Fixpoint queryBatchMessagesPages_loop (fuel : nat) (accessToken query : string)
    (maxResults : Z) (acc : list ParsedMessage) (pageToken : option string)
  : M (list ParsedMessage) :=
  match fuel with
  | O => diverge
  | S fuel' =>
      page ← queryBatchMessages accessToken (Some query) undefined pageToken;
      let acc := acc ++ page_messages page in
      let pageToken :=
        if truthy (page_nextPageToken page) then page_nextPageToken page
        else undefined in
      if truthy pageToken && (Z.of_nat (length acc) <? maxResults) then
        queryBatchMessagesPages_loop fuel' accessToken query maxResults acc
          pageToken
      else mret acc
  end.

Definition queryBatchMessagesPages (fuel : nat) (accessToken query : string)
    (maxResults : Z) : M (list ParsedMessage) :=
  queryBatchMessagesPages_loop fuel accessToken query maxResults [] undefined.

(** ** Sender history *)

(** [Promise.all([a, b])]: both requests are issued, in this order, and the
    result rejects when one of them does.  Which rejection wins when both
    fail depends on timing; the first one in the array is taken here. *)
Definition Promise_all2 {A B} (a : M A) (b : M B) : M (A * B) := λ w,
  match a w with
  | None => None
  | Some (ra, w1) =>
      match b w1 with
      | None => None
      | Some (rb, w2) =>
          Some (match ra, rb with
                | Throw e, _ => Throw e
                | Ok _, Throw e => Throw e
                | Ok x, Ok y => Ok (x, y)
                end, w2)
      end
  end.

(** [findPreviousEmailsWithSender(gmail, { sender, dateInSeconds })];
    [seconds] is the text of [dateInSeconds] as the template prints it. *)
Definition findPreviousEmailsWithSender (sender seconds : string)
  : M (list MessageRef) :=
  '(incomingEmails, outgoingEmails) ← Promise_all2
     (list_call {| userId := "me"; lp_maxResults := Some 2;
                   q := Some ("from:" +:+ sender +:+ " before:" +:+ seconds);
                   lp_pageToken := undefined; labelIds := undefined |})
     (list_call {| userId := "me"; lp_maxResults := Some 1;
                   q := Some ("to:" +:+ sender +:+ " before:" +:+ seconds);
                   lp_pageToken := undefined; labelIds := undefined |});
  let allMessages := default [] (messages incomingEmails)
                     ++ default [] (messages outgoingEmails) in
  mret allMessages.

Record Options : Type := mkOptions {
  from : string;
  date : Date;
  messageId : string;
}.

(** [hasPreviousCommunicationWithSender(gmail, options)]: [!!find(...)] is
    true exactly when some element satisfies [p.id !== options.messageId]. *)
Definition hasPreviousCommunicationWithSender (options : Options) : M bool :=
  previousEmails ← findPreviousEmailsWithSender (from options)
                     (dateInSeconds (date options));
  let hasPreviousEmail :=
    existsb (λ p, negb (bool_decide (id p = Some (messageId options))))
      previousEmails in
  mret hasPreviousEmail.

(** [String.prototype.toLowerCase], on ASCII text: bytes outside [A-Z] are
    left as they are. *)
Definition ascii_toLowerCase (c : ascii) : ascii :=
  let n := N_of_ascii c in
  if ((65 <=? n) && (n <=? 90))%N then ascii_of_N (n + 32) else c.

Fixpoint toLowerCase (s : string) : string :=
  match s with
  | EmptyString => EmptyString
  | String c s' => String (ascii_toLowerCase c) (toLowerCase s')
  end.

(** Text made of ASCII characters only.  On such text [toLowerCase] above
    is [String.prototype.toLowerCase]; beyond it the JavaScript function
    follows Unicode (U+212A, the Kelvin sign, becomes [k]) and the two
    differ, so what is stated about lower-casing is stated for ASCII
    domains. *)
Definition is_ascii_char (c : ascii) : bool := (N_of_ascii c <? 128)%N.

Fixpoint ascii_only (s : string) : bool :=
  match s with
  | EmptyString => true
  | String c s' => is_ascii_char c && ascii_only s'
  end.

Definition PUBLIC_DOMAINS : gset string :=
  list_to_set [
    "gmail.com";
    "yahoo.com";
    "hotmail.com";
    "outlook.com";
    "aol.com";
    "icloud.com";
    "@me.com";
    "protonmail.com";
    "zoho.com";
    "yandex.com";
    "fastmail.com";
    "gmx.com";
    "@hey.com"
  ].

(** [PUBLIC_DOMAINS.has(x)] *)
Definition PUBLIC_DOMAINS_has (x : string) : bool :=
  bool_decide (x ∈ PUBLIC_DOMAINS).

(** The [searchTerm] constant of [hasPreviousCommunicationsWithSenderOrDomain]. *)
Definition searchTerm (sender domain : string) : string :=
  if PUBLIC_DOMAINS_has (toLowerCase domain) then sender else domain.

(** [hasPreviousCommunicationsWithSenderOrDomain(gmail, options)] *)
Definition hasPreviousCommunicationsWithSenderOrDomain (options : Options)
  : M bool :=
  let domain := extractDomainFromEmail (from options) in
  if negb (truthy domain) then hasPreviousCommunicationWithSender options
  else
    let domain := default "" domain in
    hasPreviousCommunicationWithSender
      {| from := searchTerm (from options) domain;
         date := date options;
         messageId := messageId options |}.

End Model.

(** ** Readings of a response and of a trace

    Pure readings of the [map] callback, used to state what a call of
    [getMessagesBatch] does with a given response, and projections of the
    trace onto its requests and delays. *)

Section Readings.
Context `{Ext : Externals}.

(** What the callback returns for each position. *)
Definition mapped_of (batch : list (BatchItem RawMessage))
  : list (option ParsedMessage) :=
  map (λ item, match item with
               | BatchMessage m => Some (parseMessage m)
               | BatchError _ _ => None
               end) batch.

(** The parsed messages of a response, in response order. *)
Fixpoint parsed_of (batch : list (BatchItem RawMessage)) : list ParsedMessage :=
  match batch with
  | [] => []
  | BatchMessage m :: rest => parseMessage m :: parsed_of rest
  | BatchError _ _ :: rest => parsed_of rest
  end.

(** The requested ids at the failing positions, from position [i] on. *)
Fixpoint failed_ids (messageIds : list MessageId) (i : nat)
    (batch : list (BatchItem RawMessage)) : list MessageId :=
  match batch with
  | [] => []
  | BatchMessage _ :: rest => failed_ids messageIds (S i) rest
  | BatchError _ _ :: rest => js_index messageIds i :: failed_ids messageIds (S i) rest
  end.

(** The entries logged for the failing positions. *)
Fixpoint error_log (batch : list (BatchItem RawMessage)) : list Event :=
  match batch with
  | [] => []
  | BatchMessage _ :: rest => error_log rest
  | BatchError code message :: rest =>
      EvLog LevelError "Error fetching message" (BatchErrorFields code message)
      :: error_log rest
  end.

(** Adding the elements of [l] to the set [s], one after the other. *)
Definition Set_add_all (l s : list MessageId) : list MessageId :=
  foldl (λ s x, Set_add x s) s l.

(** [Array.from(missingMessageIds)] once the whole response was mapped. *)
Definition missing_ids (messageIds : list MessageId)
    (batch : list (BatchItem RawMessage)) : list MessageId :=
  Set_add_all (failed_ids messageIds 0 batch) [].

(** The id lists of the batch requests of a trace, in order. *)
Definition batch_requests (t : list Event) : list (list MessageId) :=
  omap (λ e, match e with EvGetBatch ids _ _ => Some ids | _ => None end) t.

(** The list requests of a trace, in order. *)
Definition list_requests (t : list Event) : list ListParams :=
  omap (λ e, match e with EvList params => Some params | _ => None end) t.

(** The delays of a trace, in order. *)
Definition delays (t : list Event) : list Z :=
  omap (λ e, match e with EvSleep ms => Some ms | _ => None end) t.

(** The two searches of [findPreviousEmailsWithSender]. *)
Definition incoming_request (term seconds : string) : ListParams :=
  {| userId := "me"; lp_maxResults := Some 2;
     q := Some ("from:" +:+ term +:+ " before:" +:+ seconds);
     lp_pageToken := undefined; labelIds := undefined |}.

Definition outgoing_request (term seconds : string) : ListParams :=
  {| userId := "me"; lp_maxResults := Some 1;
     q := Some ("to:" +:+ term +:+ " before:" +:+ seconds);
     lp_pageToken := undefined; labelIds := undefined |}.

(** The delays of a retry sequence entered with [retryCount]: one second
    more at each level. *)
Definition backoff (retryCount : Z) (levels : nat) : list Z :=
  map (λ k, 1000 * (retryCount + 1 + Z.of_nat k)) (seq 0 levels).

(** The list request of one page of [queryBatchMessagesPages]. *)
Definition page_request (query : string) (pageToken : option string) : ListParams :=
  {| userId := "me"; lp_maxResults := Some 20; q := Some query;
     lp_pageToken := pageToken; labelIds := undefined |}.

(** A completed run of the pagination loop, in the words of its contract:
    pages are fetched one after the other, each with the token of the one
    before; every page is appended whole; the run ends with the first page
    that carries no token or brings the count to [maxResults].  The last
    index counts the pages. *)
Inductive PagesRun (accessToken query : string) (maxResults : Z)
  : list ParsedMessage → option string → World →
    list ParsedMessage → World → nat → Prop :=
  | PagesRun_last acc pageToken w page w1 :
      queryBatchMessages accessToken (Some query) undefined pageToken w
        = Some (Ok page, w1) →
      truthy (page_nextPageToken page) = false
        ∨ maxResults ≤ Z.of_nat (length (acc ++ page_messages page)) →
      PagesRun accessToken query maxResults acc pageToken w
        (acc ++ page_messages page) w1 1
  | PagesRun_more acc pageToken w page w1 res w2 n :
      queryBatchMessages accessToken (Some query) undefined pageToken w
        = Some (Ok page, w1) →
      truthy (page_nextPageToken page) = true →
      Z.of_nat (length (acc ++ page_messages page)) < maxResults →
      PagesRun accessToken query maxResults (acc ++ page_messages page)
        (page_nextPageToken page) w1 res w2 n →
      PagesRun accessToken query maxResults acc pageToken w res w2 (S n).

End Readings.

(** ** The runs of [getMessagesBatch]

    One constructor per path through the body; the retry path carries the
    run of the nested call. *)

Section Runs.
Context `{Ext : Externals}.

(** What a level returns once the nested call is back. *)
Definition with_parsed (parsed : list ParsedMessage)
    (r : result (list ParsedMessage)) : result (list ParsedMessage) :=
  match r with
  | Ok missingMessages => Ok (parsed ++ missingMessages)
  | Throw e => Throw e
  end.

Inductive BatchRun (accessToken : string)
  : list MessageId → Z → World → result (list ParsedMessage) → World → Prop :=
  | BatchRun_exhausted messageIds retryCount w :
      retryCount > 3 →
      BatchRun accessToken messageIds retryCount w (Ok [])
        (mkWorld (remote w)
           (trace w ++ [EvLog LevelError "Too many retries"
                          (RetryFields messageIds retryCount)]))
  | BatchRun_too_many messageIds retryCount w :
      retryCount ≤ 3 → (100 < length messageIds)%nat →
      BatchRun accessToken messageIds retryCount w
        (Throw (Error "Too many messages. Max 1000")) w
  | BatchRun_transport messageIds retryCount w e rm :
      retryCount ≤ 3 → (length messageIds ≤ 100)%nat →
      getBatch messageIds batch_endpoint accessToken (remote w) = (Throw e, rm) →
      BatchRun accessToken messageIds retryCount w (Throw e)
        (mkWorld rm (trace w ++
           [EvGetBatch messageIds batch_endpoint accessToken]))
  | BatchRun_complete messageIds retryCount w batch rm :
      retryCount ≤ 3 → (length messageIds ≤ 100)%nat →
      getBatch messageIds batch_endpoint accessToken (remote w) = (Ok batch, rm) →
      missing_ids messageIds batch = [] →
      BatchRun accessToken messageIds retryCount w (Ok (parsed_of batch))
        (mkWorld rm (trace w ++
           EvGetBatch messageIds batch_endpoint accessToken :: error_log batch))
  | BatchRun_retry messageIds retryCount w batch rm r w' :
      retryCount ≤ 3 → (length messageIds ≤ 100)%nat →
      getBatch messageIds batch_endpoint accessToken (remote w) = (Ok batch, rm) →
      missing_ids messageIds batch ≠ [] →
      BatchRun accessToken (missing_ids messageIds batch) (retryCount + 1)
        (mkWorld rm (trace w ++
           EvGetBatch messageIds batch_endpoint accessToken :: error_log batch ++
           [EvLog LevelInfo "Missing messages"
              (MissingFields (missing_ids messageIds batch));
            EvSleep (1000 * (retryCount + 1))]))
        r w' →
      BatchRun accessToken messageIds retryCount w
        (with_parsed (parsed_of batch) r) w'.

End Runs.

(** ** A scripted mailbox

    An executable remote for the scenarios of the contract: whether an id
    fails depends on how many batch requests the remote has served, and list
    requests are answered from a script of pages. *)

Module Sim.
Section Sim.
Context {Raw Parsed : Type}.
Variable parse : Raw → Parsed.
Variable content : MessageId → Raw.
Variable fails : nat → MessageId → bool.

Record State : Type := mkState {
  served : nat;
  script : list ListResponse;
}.

Definition answer (n : nat) (i : MessageId) : BatchItem Raw :=
  if fails n i then BatchError 503 "Backend Error" else BatchMessage (content i).

Definition sim_getBatch (ids : list MessageId) (endpoint accessToken : string)
    (s : State) : result (list (BatchItem Raw)) * State :=
  (Ok (map (answer (served s)) ids), mkState (S (served s)) (script s)).

Definition sim_list (params : ListParams) (s : State)
  : result ListResponse * State :=
  match script s with
  | [] => (Ok {| messages := None; nextPageToken := None |}, s)
  | page :: rest => (Ok page, mkState (served s) rest)
  end.

(** The text after the first ["@"] of an address. *)
Fixpoint sim_extractDomain (email : string) : option string :=
  match email with
  | EmptyString => None
  | String c rest => if Ascii.eqb c "@" then Some rest else sim_extractDomain rest
  end.

Definition externals : Externals := {|
  RawMessage := Raw;
  ParsedMessage := Parsed;
  Remote := State;
  Date := N;
  parseMessage := parse;
  getBatch := sim_getBatch;
  users_messages_list := sim_list;
  extractDomainFromEmail := sim_extractDomain;
  dateInSeconds := pretty;
|}.

(** The ids delivered by [attempts] rounds starting at request number [n]:
    those that succeed in this round, then those of the failing ones that
    succeed later. *)
Fixpoint delivered (attempts n : nat) (ids : list MessageId) : list MessageId :=
  match attempts with
  | O => []
  | S k =>
      let good := filter (λ i, fails n i = false) ids in
      let bad := Set_add_all (filter (λ i, fails n i = true) ids) [] in
      match bad with
      | [] => good
      | _ => good ++ delivered k (S n) bad
      end
  end.

(** The ids still missing when [attempts] rounds are over. *)
Fixpoint abandoned (attempts n : nat) (ids : list MessageId) : list MessageId :=
  match attempts with
  | O => ids
  | S k =>
      match Set_add_all (filter (λ i, fails n i = true) ids) [] with
      | [] => []
      | bad => abandoned k (S n) bad
      end
  end.

End Sim.

(** [count] message references numbered from [first]. *)
Definition refs (first count : nat) : list MessageRef :=
  map (λ i, mkMessageRef (Some (pretty i))) (seq first count).

Definition page (first count : nat) (token : option string) : ListResponse :=
  {| messages := Some (refs first count); nextPageToken := token |}.

(** A mailbox in which nothing fails and a message is its own id. *)
Definition plain : Externals := externals (λ i : MessageId, i) (λ i, i) (λ _ _, false).

Definition start (pages : list ListResponse) : @World plain :=
  @mkWorld plain (mkState 0 pages) [].

(** A mailbox that refuses ["b"] twice and ["c"] every time. *)
Definition flaky_fails (n : nat) (i : MessageId) : bool :=
  bool_decide (i = Some "b") && (n <? 2)%nat || bool_decide (i = Some "c").

Definition flaky : Externals := externals (λ i : MessageId, i) (λ i, i) flaky_fails.

Definition flaky_start : @World flaky := @mkWorld flaky (mkState 0 []) [].

(** A transport that replays a script of whole responses, whatever is
    asked, and fails once the script is over. *)
Definition replay_getBatch (ids : list MessageId) (endpoint accessToken : string)
    (s : list (result (list (BatchItem MessageId))))
  : result (list (BatchItem MessageId)) * list (result (list (BatchItem MessageId))) :=
  match s with
  | [] => (Throw (Error "fetch failed"), [])
  | response :: rest => (response, rest)
  end.

Definition replay : Externals := {|
  RawMessage := MessageId;
  ParsedMessage := MessageId;
  Remote := list (result (list (BatchItem MessageId)));
  Date := N;
  parseMessage := λ m, m;
  getBatch := replay_getBatch;
  users_messages_list := λ _ s, (Throw (Error "fetch failed"), s);
  extractDomainFromEmail := sim_extractDomain;
  dateInSeconds := pretty;
|}.

Definition replay_start (s : list (result (list (BatchItem MessageId))))
  : @World replay := @mkWorld replay s [].

End Sim.

(** ** Lookup of a single message

    [getMessage] and [getMessageByRfc822Id] use one more operation of the
    Gmail client, [gmail.users.messages.get], and one more log entry.  They
    are run over a world of their own, whose trace has these events. *)

Module Lookup.

Inductive Format : Type := full | metadata.

(** [gmail.users.messages.get({ userId: "me", id, format })], returning
    [message.data]. *)
Class GetExternals `{Ext : Externals} : Type := {
  users_messages_get : string → option Format → Remote →
                       result RawMessage * Remote;
}.

Inductive LookupEvent : Type :=
  | LkList (params : ListParams)
  | LkGet (id : string) (format : option Format)
  | LkLogError (message rfc822MessageId : string).

Section Lookup.
Context `{Get : GetExternals}.

Record LookupWorld : Type := mkLookupWorld {
  lk_remote : Remote;
  lk_trace : list LookupEvent;
}.

Definition L (A : Type) : Type := LookupWorld → result A * LookupWorld.

#[export] Instance L_ret : MRet L := λ A a w, (Ok a, w).

#[export] Instance L_bind : MBind L := λ A B f m w,
  match m w with
  | (Throw e, w') => (Throw e, w')
  | (Ok a, w') => f a w'
  end.

Definition lk_call {A} (e : LookupEvent) (f : Remote → result A * Remote)
  : L A :=
  λ w, let '(r, rm) := f (lk_remote w) in
       (r, mkLookupWorld rm (lk_trace w ++ [e])).

Definition lk_log_error (message rfc822MessageId : string) : L unit :=
  λ w, (Ok tt, mkLookupWorld (lk_remote w)
                 (lk_trace w ++ [LkLogError message rfc822MessageId])).

(** [getMessage(messageId, gmail, format)] *)
Definition getMessage (messageId : string) (format : option Format)
  : L RawMessage :=
  lk_call (LkGet messageId format) (users_messages_get messageId format).

(** [s.replace(/[<>]/g, "")] *)
Fixpoint strip_angle_brackets (s : string) : string :=
  match s with
  | EmptyString => EmptyString
  | String c rest =>
      if Ascii.eqb c "<" || Ascii.eqb c ">" then strip_angle_brackets rest
      else String c (strip_angle_brackets rest)
  end.

(** [array?.[0]] *)
Definition first_message (ms : option (list MessageRef)) : option MessageRef :=
  match ms with
  | Some (m :: _) => Some m
  | _ => None
  end.

(** The list request of [getMessageByRfc822Id]. *)
Definition rfc822_request (cleanMessageId : string) : ListParams :=
  {| userId := "me"; lp_maxResults := Some 1;
     q := Some ("rfc822msgid:" +:+ cleanMessageId);
     lp_pageToken := undefined; labelIds := undefined |}.

(** [getMessageByRfc822Id(rfc822MessageId, gmail)]; [null] is [None]. *)
Definition getMessageByRfc822Id (rfc822MessageId : string)
  : L (option RawMessage) :=
  let cleanMessageId := strip_angle_brackets rfc822MessageId in
  response ← lk_call (LkList (rfc822_request cleanMessageId))
                (users_messages_list (rfc822_request cleanMessageId));
  let message := first_message (messages response) in
  match message ≫= id with
  | Some message_id =>
      if String.eqb message_id "" then
        lk_log_error "No message found for RFC822 Message-ID" rfc822MessageId;;
        mret None
      else
        found ← getMessage message_id undefined;
        mret (Some found)
  | None =>
      lk_log_error "No message found for RFC822 Message-ID" rfc822MessageId;;
      mret None
  end.

End Lookup.

(** The scripted mailbox answers a [get] with the id itself. *)
#[export] Instance plain_get : @GetExternals Sim.plain :=
  {| users_messages_get := λ messageId _ (s : @Remote Sim.plain),
       (Ok (Some messageId), s) |}.

Definition lookup_start (pages : list ListResponse) : @LookupWorld Sim.plain :=
  @mkLookupWorld Sim.plain (Sim.mkState 0 pages) [].

End Lookup.

(** * Properties *)

Section Laws.
Context `{Ext : Externals}.

(** ** Running the monad *)

Lemma bind_Ok {A B} (m : M A) (f : A → M B) w a w' :
  m w = Some (Ok a, w') → (m ≫= f) w = f a w'.
Proof. intros Hm. unfold mbind, M_bind. now rewrite Hm. Qed.

Lemma bind_Throw {A B} (m : M A) (f : A → M B) w e w' :
  m w = Some (Throw e, w') → (m ≫= f) w = Some (Throw e, w').
Proof. intros Hm. unfold mbind, M_bind. now rewrite Hm. Qed.

Lemma emit_run e w :
  emit e w = Some (Ok tt, mkWorld (remote w) (trace w ++ [e])).
Proof. reflexivity. Qed.

Lemma getBatch_call_run ids endpoint tok w r rm :
  getBatch ids endpoint tok (remote w) = (r, rm) →
  getBatch_call ids endpoint tok w
  = Some (r, mkWorld rm (trace w ++ [EvGetBatch ids endpoint tok])).
Proof. intros H. unfold getBatch_call, call. now rewrite H. Qed.

Lemma list_call_run params w r rm :
  users_messages_list params (remote w) = (r, rm) →
  list_call params w = Some (r, mkWorld rm (trace w ++ [EvList params])).
Proof. intros H. unfold list_call, call. now rewrite H. Qed.

(** ** The [map] callback *)

Lemma filter_isDefined_mapped_of batch :
  filter_isDefined (mapped_of batch) = parsed_of batch.
Proof.
  induction batch as [|[m|code msg] rest IH]; cbn; [done| |done].
  now rewrite <- IH.
Qed.

Lemma mapBatch_run messageIds batch : ∀ i missing w,
  mapBatch messageIds i batch missing w
  = Some (Ok (mapped_of batch,
              Set_add_all (failed_ids messageIds i batch) missing),
          mkWorld (remote w) (trace w ++ error_log batch)).
Proof.
  induction batch as [|[m|code msg] rest IH]; intros i missing w.
  - cbn. rewrite app_nil_r. now destruct w.
  - cbn [mapBatch]. erewrite bind_Ok by apply IH. reflexivity.
  - cbn [mapBatch]. unfold logger_error.
    erewrite bind_Ok by apply emit_run.
    erewrite bind_Ok by apply IH.
    cbn. now rewrite <- app_assoc.
Qed.

(** ** One level of [getMessagesBatch] *)

Section Level.
Variables (fuel : nat) (messageIds : list MessageId) (accessToken : string).
Variables (retryCount : Z) (w : World).

Lemma getMessagesBatch_rec_exhausted :
  retryCount > 3 →
  getMessagesBatch_rec (S fuel) messageIds accessToken retryCount w
  = Some (Ok [], mkWorld (remote w)
                   (trace w ++ [EvLog LevelError "Too many retries"
                                  (RetryFields messageIds retryCount)])).
Proof.
  intros Hrc. cbn [getMessagesBatch_rec].
  replace (retryCount >? 3) with true by lia. reflexivity.
Qed.

Lemma getMessagesBatch_rec_too_many :
  retryCount ≤ 3 → (100 < length messageIds)%nat →
  getMessagesBatch_rec (S fuel) messageIds accessToken retryCount w
  = Some (Throw (Error "Too many messages. Max 1000"), w).
Proof.
  intros Hrc Hlen. cbn [getMessagesBatch_rec].
  replace (retryCount >? 3) with false by lia.
  replace (Z.of_nat (length messageIds) >? 100) with true by lia.
  reflexivity.
Qed.

Hypothesis Hrc : retryCount ≤ 3.
Hypothesis Hlen : (length messageIds ≤ 100)%nat.

Lemma getMessagesBatch_rec_transport e rm :
  getBatch messageIds batch_endpoint accessToken (remote w) = (Throw e, rm) →
  getMessagesBatch_rec (S fuel) messageIds accessToken retryCount w
  = Some (Throw e, mkWorld rm (trace w ++
            [EvGetBatch messageIds batch_endpoint accessToken])).
Proof.
  intros Hb. cbn [getMessagesBatch_rec].
  replace (retryCount >? 3) with false by lia.
  replace (Z.of_nat (length messageIds) >? 100) with false by lia.
  erewrite bind_Throw; [reflexivity|]. now apply getBatch_call_run.
Qed.

Lemma getMessagesBatch_rec_complete batch rm :
  getBatch messageIds batch_endpoint accessToken (remote w) = (Ok batch, rm) →
  missing_ids messageIds batch = [] →
  getMessagesBatch_rec (S fuel) messageIds accessToken retryCount w
  = Some (Ok (parsed_of batch),
          mkWorld rm (trace w ++
            EvGetBatch messageIds batch_endpoint accessToken :: error_log batch)).
Proof.
  intros Hb Hmiss. cbn [getMessagesBatch_rec].
  replace (retryCount >? 3) with false by lia.
  replace (Z.of_nat (length messageIds) >? 100) with false by lia.
  erewrite bind_Ok by (apply getBatch_call_run; eassumption).
  erewrite bind_Ok by apply mapBatch_run.
  fold (missing_ids messageIds batch). rewrite Hmiss. cbn.
  now rewrite filter_isDefined_mapped_of, <- app_assoc.
Qed.

Lemma getMessagesBatch_rec_retry batch rm :
  getBatch messageIds batch_endpoint accessToken (remote w) = (Ok batch, rm) →
  missing_ids messageIds batch ≠ [] →
  getMessagesBatch_rec (S fuel) messageIds accessToken retryCount w
  = (missingMessages ← getMessagesBatch_rec fuel (missing_ids messageIds batch)
                         accessToken (retryCount + 1);
     mret (parsed_of batch ++ missingMessages))
      (mkWorld rm (trace w ++
         EvGetBatch messageIds batch_endpoint accessToken :: error_log batch ++
         [EvLog LevelInfo "Missing messages"
            (MissingFields (missing_ids messageIds batch));
          EvSleep (1000 * (retryCount + 1))])).
Proof.
  intros Hb Hmiss. cbn [getMessagesBatch_rec].
  replace (retryCount >? 3) with false by lia.
  replace (Z.of_nat (length messageIds) >? 100) with false by lia.
  erewrite bind_Ok by (apply getBatch_call_run; eassumption).
  erewrite bind_Ok by apply mapBatch_run.
  cbv beta iota zeta. fold (missing_ids messageIds batch).
  assert (0 < length (missing_ids messageIds batch))%nat as Hpos
    by (destruct (missing_ids messageIds batch); [done|cbn; lia]).
  replace (Z.of_nat (length (missing_ids messageIds batch)) >? 0) with true
    by lia.
  unfold logger_info, sleep.
  erewrite (bind_Ok (emit _)) by apply emit_run. cbv beta zeta.
  erewrite (bind_Ok (emit _)) by apply emit_run.
  rewrite filter_isDefined_mapped_of. cbn [remote trace].
  repeat rewrite <- app_assoc. reflexivity.
Qed.

End Level.

(** ** Fuel never runs out in [getMessagesBatch] *)

Lemma bind_congr {A B} (m1 m2 : M A) (f : A → M B) w :
  m1 w = m2 w → (m1 ≫= f) w = (m2 ≫= f) w.
Proof. intros Hm. unfold mbind, M_bind. now rewrite Hm. Qed.

Lemma getMessagesBatch_rec_irrelevant n : ∀ fuel1 fuel2 messageIds accessToken retryCount w,
  (Z.to_nat (4 - retryCount) ≤ n)%nat → (n < fuel1)%nat → (n < fuel2)%nat →
  getMessagesBatch_rec fuel1 messageIds accessToken retryCount w
  = getMessagesBatch_rec fuel2 messageIds accessToken retryCount w.
Proof.
  induction n as [|n IH]; intros [|f1] [|f2] ids tok rc w Hn H1 H2; try lia.
  - rewrite !getMessagesBatch_rec_exhausted by lia. reflexivity.
  - destruct (Z_gt_le_dec rc 3) as [Hrc|Hrc].
    { rewrite !getMessagesBatch_rec_exhausted by lia. reflexivity. }
    destruct (le_lt_dec (length ids) 100) as [Hlen|Hlen].
    2:{ rewrite !getMessagesBatch_rec_too_many by lia. reflexivity. }
    destruct (getBatch ids batch_endpoint tok (remote w)) as [[batch|e] rm] eqn:Hb.
    2:{ now rewrite !(getMessagesBatch_rec_transport _ _ _ _ _ Hrc Hlen _ _ Hb). }
    destruct (decide (missing_ids ids batch = [])) as [Hm|Hm].
    { now rewrite !(getMessagesBatch_rec_complete _ _ _ _ _ Hrc Hlen _ _ Hb Hm). }
    rewrite !(getMessagesBatch_rec_retry _ _ _ _ _ Hrc Hlen _ _ Hb Hm).
    apply bind_congr, IH; lia.
Qed.

Lemma getMessagesBatch_rec_fuel fuel messageIds accessToken retryCount w :
  (Z.to_nat (4 - retryCount) < fuel)%nat →
  getMessagesBatch_rec fuel messageIds accessToken retryCount w
  = getMessagesBatch messageIds accessToken retryCount w.
Proof.
  intros Hf. unfold getMessagesBatch.
  apply (getMessagesBatch_rec_irrelevant (Z.to_nat (4 - retryCount))); lia.
Qed.

(** ** The equations of [getMessagesBatch], one per path of its body *)

Section Paths.
Variables (messageIds : list MessageId) (accessToken : string).
Variables (retryCount : Z) (w : World).

Lemma getMessagesBatch_exhausted :
  retryCount > 3 →
  getMessagesBatch messageIds accessToken retryCount w
  = Some (Ok [], mkWorld (remote w)
                   (trace w ++ [EvLog LevelError "Too many retries"
                                  (RetryFields messageIds retryCount)])).
Proof. apply getMessagesBatch_rec_exhausted. Qed.

Lemma getMessagesBatch_too_many :
  retryCount ≤ 3 → (100 < length messageIds)%nat →
  getMessagesBatch messageIds accessToken retryCount w
  = Some (Throw (Error "Too many messages. Max 1000"), w).
Proof. apply getMessagesBatch_rec_too_many. Qed.

Hypothesis Hrc : retryCount ≤ 3.
Hypothesis Hlen : (length messageIds ≤ 100)%nat.

Lemma getMessagesBatch_transport e rm :
  getBatch messageIds batch_endpoint accessToken (remote w) = (Throw e, rm) →
  getMessagesBatch messageIds accessToken retryCount w
  = Some (Throw e, mkWorld rm (trace w ++
            [EvGetBatch messageIds batch_endpoint accessToken])).
Proof. now apply getMessagesBatch_rec_transport. Qed.

Lemma getMessagesBatch_complete batch rm :
  getBatch messageIds batch_endpoint accessToken (remote w) = (Ok batch, rm) →
  missing_ids messageIds batch = [] →
  getMessagesBatch messageIds accessToken retryCount w
  = Some (Ok (parsed_of batch),
          mkWorld rm (trace w ++
            EvGetBatch messageIds batch_endpoint accessToken :: error_log batch)).
Proof. now apply getMessagesBatch_rec_complete. Qed.

Lemma getMessagesBatch_retry batch rm :
  getBatch messageIds batch_endpoint accessToken (remote w) = (Ok batch, rm) →
  missing_ids messageIds batch ≠ [] →
  getMessagesBatch messageIds accessToken retryCount w
  = (missingMessages ← getMessagesBatch (missing_ids messageIds batch)
                         accessToken (retryCount + 1);
     mret (parsed_of batch ++ missingMessages))
      (mkWorld rm (trace w ++
         EvGetBatch messageIds batch_endpoint accessToken :: error_log batch ++
         [EvLog LevelInfo "Missing messages"
            (MissingFields (missing_ids messageIds batch));
          EvSleep (1000 * (retryCount + 1))])).
Proof.
  intros Hb Hm. unfold getMessagesBatch at 1.
  rewrite (getMessagesBatch_rec_retry _ _ _ _ _ Hrc Hlen _ _ Hb Hm).
  apply bind_congr, getMessagesBatch_rec_fuel. lia.
Qed.

End Paths.

(** ** Reading a trace *)

Lemma batch_requests_app t1 t2 :
  batch_requests (t1 ++ t2) = batch_requests t1 ++ batch_requests t2.
Proof. apply omap_app. Qed.

Lemma delays_app t1 t2 : delays (t1 ++ t2) = delays t1 ++ delays t2.
Proof. apply omap_app. Qed.

Lemma batch_requests_error_log batch : batch_requests (error_log batch) = [].
Proof. induction batch as [|[m|c e] rest IH]; cbn; auto. Qed.

Lemma delays_error_log batch : delays (error_log batch) = [].
Proof. induction batch as [|[m|c e] rest IH]; cbn; auto. Qed.

Lemma backoff_S retryCount levels :
  backoff retryCount (S levels)
  = 1000 * (retryCount + 1) :: backoff (retryCount + 1) levels.
Proof.
  unfold backoff. cbn [seq map]. f_equal; [f_equal; lia|].
  rewrite <- fmap_S_seq, <- list_fmap_compose.
  apply list_fmap_ext. intros _ k _. cbn. lia.
Qed.

Lemma bind_mret_world {A B} (m : M A) (f : A → B) w r w' :
  m w = Some (r, w') → ∃ r', (a ← m; mret (f a)) w = Some (r', w').
Proof.
  intros Hm. unfold mbind, M_bind. rewrite Hm.
  destruct r; eauto.
Qed.

(** Every call returns, after at most [4 - retryCount] batch requests, each
    retry being preceded by its delay. *)
Lemma getMessagesBatch_trace n : ∀ messageIds accessToken retryCount w,
  (Z.to_nat (4 - retryCount) ≤ n)%nat →
  ∃ r w' added,
    getMessagesBatch messageIds accessToken retryCount w = Some (r, w')
    ∧ trace w' = trace w ++ added
    ∧ (length (batch_requests added) ≤ Z.to_nat (4 - retryCount))%nat
    ∧ (length (delays added) ≤ length (batch_requests added))%nat
    ∧ delays added = backoff retryCount (length (delays added)).
Proof.
  induction n as [|n IH]; intros ids tok rc w Hn.
  - rewrite getMessagesBatch_exhausted by lia.
    eexists _, _, _. do 2 (split; [reflexivity|]). cbn. repeat split; first [lia | reflexivity].
  - destruct (Z_gt_le_dec rc 3) as [Hrc|Hrc].
    { rewrite getMessagesBatch_exhausted by lia.
      eexists _, _, _. do 2 (split; [reflexivity|]). cbn. repeat split; first [lia | reflexivity]. }
    destruct (le_lt_dec (length ids) 100) as [Hlen|Hlen].
    2:{ rewrite getMessagesBatch_too_many by lia.
        exists (Throw (Error "Too many messages. Max 1000")), w, [].
        rewrite app_nil_r. cbn. repeat split; first [lia | reflexivity]. }
    destruct (getBatch ids batch_endpoint tok (remote w)) as [[batch|e] rm] eqn:Hb.
    2:{ rewrite (getMessagesBatch_transport _ _ _ _ Hrc Hlen _ _ Hb).
        eexists _, _, _. do 2 (split; [reflexivity|]). cbn. repeat split; first [lia | reflexivity]. }
    destruct (decide (missing_ids ids batch = [])) as [Hm|Hm].
    { rewrite (getMessagesBatch_complete _ _ _ _ Hrc Hlen _ _ Hb Hm).
      eexists _, _, _. split; [reflexivity|]. cbn [trace].
      split; [reflexivity|].
      change (EvGetBatch ids batch_endpoint tok :: error_log batch)
        with ([EvGetBatch ids batch_endpoint tok] ++ error_log batch).
      rewrite batch_requests_app, delays_app, batch_requests_error_log,
        delays_error_log. cbn. repeat split; first [lia | reflexivity]. }
    rewrite (getMessagesBatch_retry _ _ _ _ Hrc Hlen _ _ Hb Hm).
    match goal with |- context [(_ ≫= _) ?w2] => set (w2' := w2) end.
    destruct (IH (missing_ids ids batch) tok (rc + 1) w2' ltac:(lia))
      as (r & w3 & added & Hrun & Htr & Hreq & Hdel & Hback).
    destruct (bind_mret_world _ (λ rest, parsed_of batch ++ rest) _ _ _ Hrun)
      as [r' Hr'].
    exists r', w3, ([EvGetBatch ids batch_endpoint tok] ++ error_log batch ++
      [EvLog LevelInfo "Missing messages" (MissingFields (missing_ids ids batch));
       EvSleep (1000 * (rc + 1))] ++ added).
    split; [exact Hr'|].
    split; [rewrite Htr; subst w2'; cbn [trace]; rewrite <- !app_assoc; cbn [app];
            now rewrite <- ?app_assoc|].
    rewrite !batch_requests_app, !delays_app, batch_requests_error_log,
      delays_error_log. cbn -[backoff Z.to_nat Z.sub Z.mul Z.add].
    rewrite backoff_S. repeat split; [lia|lia|].
    f_equal. exact Hback.
Qed.

End Laws.

(** ** [getMessagesBatch] against the scripted mailbox *)

Section SetLaws.

Lemma elem_of_Set_add x y s : x ∈ Set_add y s ↔ x = y ∨ x ∈ s.
Proof.
  unfold Set_add. destruct (decide (y ∈ s)) as [Hin|Hnin].
  - split; [auto|]. intros [->|]; auto.
  - rewrite elem_of_app, list_elem_of_singleton. tauto.
Qed.

Lemma length_Set_add y s : (length (Set_add y s) ≤ S (length s))%nat.
Proof.
  unfold Set_add. destruct (decide (y ∈ s)); [lia|].
  rewrite length_app. cbn. lia.
Qed.

Lemma elem_of_Set_add_all x l : ∀ s, x ∈ Set_add_all l s ↔ x ∈ l ∨ x ∈ s.
Proof.
  unfold Set_add_all.
  induction l as [|y l IH]; intros s; cbn [foldl].
  - rewrite elem_of_nil. tauto.
  - rewrite IH, elem_of_Set_add, elem_of_cons. tauto.
Qed.

Lemma length_Set_add_all l : ∀ s,
  (length (Set_add_all l s) ≤ length l + length s)%nat.
Proof.
  unfold Set_add_all.
  induction l as [|y l IH]; intros s; cbn [foldl length]; [lia|].
  specialize (IH (Set_add y s)). pose proof (length_Set_add y s). lia.
Qed.

End SetLaws.

(** ** A transport that always answers, item for item *)

Section Aligned.
Context `{Ext : Externals}.

Lemma length_failed_ids messageIds batch : ∀ i,
  (length (failed_ids messageIds i batch) ≤ length batch)%nat.
Proof.
  induction batch as [|[m|code e] rest IH]; intros i; cbn; [lia| |];
    specialize (IH (S i)); lia.
Qed.

Lemma length_missing_ids messageIds batch :
  (length (missing_ids messageIds batch) ≤ length batch)%nat.
Proof.
  unfold missing_ids.
  pose proof (length_Set_add_all (failed_ids messageIds 0 batch) []).
  pose proof (length_failed_ids messageIds batch 0). cbn in *. lia.
Qed.

Hypothesis aligned : ∀ ids endpoint accessToken rm,
  ∃ batch rm', getBatch ids endpoint accessToken rm = (Ok batch, rm')
               ∧ length batch = length ids.

Lemma getMessagesBatch_no_throw n : ∀ messageIds accessToken retryCount (w : World),
  (Z.to_nat (4 - retryCount) ≤ n)%nat → (length messageIds ≤ 100)%nat →
  ∃ res w', getMessagesBatch messageIds accessToken retryCount w
            = Some (Ok res, w').
Proof.
  induction n as [|n IH]; intros ids tok rc w Hn Hlen.
  - rewrite getMessagesBatch_exhausted by lia. eauto.
  - destruct (Z_gt_le_dec rc 3) as [Hrc|Hrc].
    { rewrite getMessagesBatch_exhausted by lia. eauto. }
    destruct (aligned ids batch_endpoint tok (remote w))
      as (batch & rm & Hb & Hal).
    destruct (decide (missing_ids ids batch = [])) as [Hm|Hm].
    { rewrite (getMessagesBatch_complete _ _ _ _ Hrc Hlen _ _ Hb Hm). eauto. }
    rewrite (getMessagesBatch_retry _ _ _ _ Hrc Hlen _ _ Hb Hm).
    match goal with |- context [(_ ≫= _) ?w2] => set (w2' := w2) end.
    destruct (IH (missing_ids ids batch) tok (rc + 1) w2') as (rest & w3 & Hrun).
    { lia. }
    { pose proof (length_missing_ids ids batch). lia. }
    erewrite bind_Ok by exact Hrun. cbn. eauto.
Qed.

End Aligned.

Section Rounds.
Variable fails : nat → MessageId → bool.

Lemma length_bad n ids :
  (length (Set_add_all (filter (λ i, fails n i = true) ids) []) ≤ length ids)%nat.
Proof.
  pose proof (length_Set_add_all (filter (λ i, fails n i = true) ids) []).
  pose proof (length_filter (λ i, fails n i = true) ids). cbn in *. lia.
Qed.

Lemma elem_of_bad n ids i :
  i ∈ Set_add_all (filter (λ i, fails n i = true) ids) []
  ↔ i ∈ ids ∧ fails n i = true.
Proof.
  rewrite elem_of_Set_add_all, list_elem_of_filter, elem_of_nil. tauto.
Qed.

Lemma elem_of_delivered attempts : ∀ n ids i,
  i ∈ Sim.delivered fails attempts n ids
  ↔ i ∈ ids ∧ ∃ j, (n ≤ j < n + attempts)%nat ∧ fails j i = false.
Proof.
  induction attempts as [|k IH]; intros n ids i; cbn [Sim.delivered].
  - rewrite elem_of_nil. split; [done|]. intros (_ & j & Hj & _). lia.
  - pose proof (elem_of_bad n ids i) as Hbad.
    destruct (Set_add_all (filter (λ i, fails n i = true) ids) [])
      as [|b bad] eqn:Hb.
    + rewrite list_elem_of_filter. rewrite elem_of_nil in Hbad.
      split.
      * intros [Hf Hin]. split; [done|]. exists n. split; [lia|done].
      * intros (Hin & j & Hj & Hf). split; [|done].
        destruct (fails n i) eqn:Hn; [|done]. tauto.
    + rewrite elem_of_app, list_elem_of_filter, IH, Hbad.
      split.
      * intros [[Hf Hin]|[[Hin Hf] (j & Hj & Hfj)]].
        -- split; [done|]. exists n. split; [lia|done].
        -- split; [done|]. exists j. split; [lia|done].
      * intros (Hin & j & Hj & Hf).
        destruct (fails n i) eqn:Hn; [right|left; done].
        split; [done|]. exists j. split; [|done].
        destruct (decide (j = n)) as [->|]; [congruence|lia].
Qed.

Lemma elem_of_abandoned attempts : ∀ n ids i,
  i ∈ Sim.abandoned fails attempts n ids
  ↔ i ∈ ids ∧ ∀ j, (n ≤ j < n + attempts)%nat → fails j i = true.
Proof.
  induction attempts as [|k IH]; intros n ids i; cbn [Sim.abandoned].
  - split; [|tauto]. intros Hin. split; [done|]. intros j Hj. lia.
  - pose proof (elem_of_bad n ids i) as Hbad.
    destruct (Set_add_all (filter (λ i, fails n i = true) ids) [])
      as [|b bad] eqn:Hb.
    + rewrite elem_of_nil in *. split; [done|].
      intros [Hin Hall]. apply Hbad. split; [done|]. apply Hall. lia.
    + rewrite IH, Hbad. split.
      * intros [[Hin Hf] Hall]. split; [done|]. intros j Hj.
        destruct (decide (j = n)) as [->|]; [done|]. apply Hall. lia.
      * intros [Hin Hall]. split; [split; [done|apply Hall; lia]|].
        intros j Hj. apply Hall. lia.
Qed.

End Rounds.

Section SimLaws.
Context {Raw Parsed : Type}.
Variable parse : Raw → Parsed.
Variable content : MessageId → Raw.
Variable fails : nat → MessageId → bool.

Let mailbox : Externals := Sim.externals parse content fails.
#[local] Existing Instance mailbox.

Lemma parsed_of_answers n ids :
  parsed_of (map (Sim.answer content fails n) ids)
  = map (λ i, parse (content i)) (filter (λ i, fails n i = false) ids).
Proof.
  induction ids as [|a ids IH]; [done|].
  cbn [map]. unfold Sim.answer at 1.
  destruct (fails n a) eqn:Hf; cbn [parsed_of].
  - rewrite filter_cons_False by congruence. exact IH.
  - rewrite filter_cons_True by done. cbn [map]. now rewrite IH.
Qed.

Lemma failed_ids_answers n ids : ∀ pre,
  failed_ids (pre ++ ids) (length pre) (map (Sim.answer content fails n) ids)
  = filter (λ i, fails n i = true) ids.
Proof.
  induction ids as [|a ids IH]; intros pre; [done|].
  cbn [map]. unfold Sim.answer at 1.
  specialize (IH (pre ++ [a])).
  rewrite <- app_assoc, length_app, Nat.add_1_r in IH. cbn [app] in IH.
  destruct (fails n a) eqn:Hf; cbn [failed_ids].
  - rewrite filter_cons_True by done. rewrite IH. f_equal.
    unfold js_index. now rewrite list_lookup_middle.
  - rewrite filter_cons_False by congruence. exact IH.
Qed.

Lemma missing_ids_answers n ids :
  missing_ids ids (map (Sim.answer content fails n) ids)
  = Set_add_all (filter (λ i, fails n i = true) ids) [].
Proof. unfold missing_ids. f_equal. exact (failed_ids_answers n ids []). Qed.

(** A run of [attempts] rounds delivers [Sim.delivered] and leaves
    [Sim.abandoned], which it reports in its last log entry. *)
Lemma sim_run attempts : ∀ n ids accessToken (w : World),
  Sim.served (remote w) = n → (length ids ≤ 100)%nat →
  ∃ w' added,
    getMessagesBatch ids accessToken (4 - Z.of_nat attempts) w
    = Some (Ok (map (λ i, parse (content i))
                  (Sim.delivered fails attempts n ids)), w')
    ∧ trace w' = trace w ++ added
    ∧ (attempts ≠ O →
       ∃ rest, added = EvGetBatch ids batch_endpoint accessToken :: rest)
    ∧ (Sim.abandoned fails attempts n ids ≠ [] →
       ∃ before, added = before ++
         [EvLog LevelError "Too many retries"
            (RetryFields (Sim.abandoned fails attempts n ids) 4)]).
Proof.
  induction attempts as [|k IH]; intros n ids tok w Hn Hlen.
  - rewrite getMessagesBatch_exhausted by lia.
    eexists _, _. do 2 (split; [reflexivity|]).
    split; [done|]. intros _. now exists [].
  - assert (4 - Z.of_nat (S k) ≤ 3) as Hrc by lia.
    assert (getBatch ids batch_endpoint tok (remote w)
            = (Ok (map (Sim.answer content fails n) ids),
               Sim.mkState (S n) (Sim.script (remote w)))) as Hb
      by (cbn; unfold Sim.sim_getBatch; now rewrite Hn).
    cbn [Sim.delivered Sim.abandoned].
    destruct (Set_add_all (filter (λ i, fails n i = true) ids) [])
      as [|b bad] eqn:Hbad.
    + rewrite (getMessagesBatch_complete _ _ _ _ Hrc Hlen _ _ Hb)
        by (now rewrite missing_ids_answers).
      rewrite parsed_of_answers.
      eexists _, _. do 2 (split; [reflexivity|]).
      split; [eauto|done].
    + rewrite (getMessagesBatch_retry _ _ _ _ Hrc Hlen _ _ Hb)
        by (rewrite missing_ids_answers, Hbad; done).
      rewrite missing_ids_answers, Hbad, parsed_of_answers.
      match goal with |- context [(_ ≫= _) ?w2] => set (w2' := w2) end.
      destruct (IH (S n) (b :: bad) tok w2')
        as (w3 & added & Hrun & Htr & _ & Hab).
      { reflexivity. }
      { rewrite <- Hbad. pose proof (length_bad fails n ids). lia. }
      replace (4 - Z.of_nat (S k) + 1) with (4 - Z.of_nat k) by lia.
      erewrite bind_Ok by exact Hrun.
      eexists w3, _. split; [|split; [|split]].
      * cbn. now rewrite map_app.
      * rewrite Htr. subst w2'. cbn [trace].
        rewrite <- app_assoc. reflexivity.
      * intros _. cbn [app]. eauto.
      * intros Hne. destruct (Hab Hne) as [before ->].
        eexists. rewrite app_assoc. reflexivity.
Qed.

(** An id refused by the first two requests and served by the third. *)
Lemma sim_third_attempt messageIds accessToken
    (w : World) i :
  (length messageIds ≤ 100)%nat → i ∈ messageIds →
  fails (Sim.served (remote w)) i = true →
  fails (S (Sim.served (remote w))) i = true →
  fails (S (S (Sim.served (remote w)))) i = false →
  ∃ res w' t1 m1 t2 m2 t3,
    getMessagesBatch messageIds accessToken 0 w = Some (Ok res, w')
    ∧ parse (content i) ∈ res
    ∧ trace w' = trace w ++ EvGetBatch messageIds batch_endpoint accessToken :: t1
        ++ [EvSleep 1000; EvGetBatch m1 batch_endpoint accessToken] ++ t2
        ++ [EvSleep 2000; EvGetBatch m2 batch_endpoint accessToken] ++ t3
    ∧ i ∈ m1 ∧ i ∈ m2
    ∧ delays t1 = [] ∧ delays t2 = []
    ∧ batch_requests t1 = [] ∧ batch_requests t2 = [].
Proof.
  intros Hlen Hin H0 H1 H2.
  set (n := Sim.served (remote w)) in *.
  set (bad0 := Set_add_all (filter (λ i, fails n i = true) messageIds) []).
  set (bad1 := Set_add_all (filter (λ i, fails (S n) i = true) bad0) []).
  assert (i ∈ bad0) as Hin0 by (now apply elem_of_bad).
  assert (i ∈ bad1) as Hin1 by (now apply elem_of_bad).
  assert (length bad0 ≤ 100)%nat as Hlen0
    by (pose proof (length_bad fails n messageIds); subst bad0; lia).
  assert (length bad1 ≤ 100)%nat as Hlen1
    by (pose proof (length_bad fails (S n) bad0); subst bad1; lia).
  assert (0 ≤ 3) as Hrc0 by lia.
  assert (0 + 1 ≤ 3) as Hrc1 by lia.
  (* first request *)
  assert (getBatch messageIds batch_endpoint accessToken (remote w)
          = (Ok (map (Sim.answer content fails n) messageIds),
             Sim.mkState (S n) (Sim.script (remote w)))) as Hb0 by reflexivity.
  assert (missing_ids messageIds (map (Sim.answer content fails n) messageIds)
          ≠ []) as Hne0.
  { rewrite missing_ids_answers. fold bad0. intros E. rewrite E in Hin0.
    now apply elem_of_nil in Hin0. }
  rewrite (getMessagesBatch_retry _ _ _ _ Hrc0 Hlen _ _ Hb0 Hne0).
  rewrite missing_ids_answers. fold bad0.
  match goal with |- context [(_ ≫= _) ?w1] => set (w1' := w1) end.
  (* second request *)
  assert (getBatch bad0 batch_endpoint accessToken (remote w1')
          = (Ok (map (Sim.answer content fails (S n)) bad0),
             Sim.mkState (S (S n)) (Sim.script (remote w)))) as Hb1 by reflexivity.
  assert (missing_ids bad0 (map (Sim.answer content fails (S n)) bad0) ≠ [])
    as Hne1.
  { rewrite missing_ids_answers. fold bad1. intros E. rewrite E in Hin1.
    now apply elem_of_nil in Hin1. }
  pose proof (getMessagesBatch_retry _ _ _ _ Hrc1 Hlen0 _ _ Hb1 Hne1) as Hrun1.
  rewrite missing_ids_answers in Hrun1. fold bad1 in Hrun1.
  match type of Hrun1 with _ = (_ ≫= _) ?w2 => set (w2' := w2) in Hrun1 end.
  (* third request and what follows *)
  destruct (sim_run 2 (S (S n)) bad1 accessToken w2')
    as (w3 & added & Hrun2 & Htr & Hfirst & _); [reflexivity|exact Hlen1|].
  destruct Hfirst as [rest ->]; [done|].
  change (4 - Z.of_nat 2) with (0 + 1 + 1) in Hrun2.
  erewrite bind_Ok in Hrun1 by exact Hrun2.
  erewrite bind_Ok by exact Hrun1.
  eexists _, w3,
    (@error_log mailbox (map (Sim.answer content fails n) messageIds)
       ++ [EvLog LevelInfo "Missing messages" (MissingFields bad0)]),
    bad0,
    (@error_log mailbox (map (Sim.answer content fails (S n)) bad0)
       ++ [EvLog LevelInfo "Missing messages" (MissingFields bad1)]),
    bad1, rest.
  split; [reflexivity|]. split; [|split; [|repeat split; try done]].
  - apply elem_of_app; right. apply elem_of_app; right.
    apply (list_elem_of_fmap_2 (λ i, parse (content i))).
    apply elem_of_delivered. split; [done|].
    exists (S (S n)). split; [lia|done].
  - rewrite Htr. subst w2' w1'. cbn [trace].
    repeat (rewrite <- app_assoc || rewrite <- app_comm_cons).
    reflexivity.
  - now rewrite delays_app, delays_error_log.
  - now rewrite delays_app, delays_error_log.
  - now rewrite batch_requests_app, batch_requests_error_log.
  - now rewrite batch_requests_app, batch_requests_error_log.
Qed.

End SimLaws.

(** * The batch fetcher *)

Section BatchFetcher.
Context `{Ext : Externals}.

Lemma all_messages_read (messageIds : list MessageId) (raws : list RawMessage) :
  parsed_of (map BatchMessage raws) = map parseMessage raws
  ∧ error_log (map BatchMessage raws) = []
  ∧ ∀ i, failed_ids messageIds i (map BatchMessage raws) = [].
Proof.
  induction raws as [|raw raws (IHp & IHe & IHf)]; [done|].
  cbn. rewrite IHp. auto.
Qed.

(** C1: a batch of at most 100 ids whose response has no failed item is
    answered by a single request, and the result holds, position by
    position, the parser's output for the raw message of each requested id:
    one per id, none missing, none twice. *)
Theorem getMessagesBatch_no_failures messageIds accessToken (w : World) raws rm :
  (length messageIds ≤ 100)%nat →
  getBatch messageIds batch_endpoint accessToken (remote w)
    = (Ok (map BatchMessage raws), rm) →
  length raws = length messageIds →
  ∃ res,
    getMessagesBatch messageIds accessToken 0 w
    = Some (Ok res, mkWorld rm (trace w ++
              [EvGetBatch messageIds batch_endpoint accessToken]))
    ∧ res = map parseMessage raws
    ∧ length res = length messageIds
    ∧ ∀ i messageId, messageIds !! i = Some messageId →
        ∃ raw, raws !! i = Some raw ∧ res !! i = Some (parseMessage raw).
Proof.
  intros Hlen Hb Hraws.
  destruct (all_messages_read messageIds raws) as (Hp & He & Hf).
  exists (map parseMessage raws). split; [|split; [done|split]].
  - assert (0 ≤ 3) as Hrc by lia.
    rewrite (getMessagesBatch_complete _ _ _ _ Hrc Hlen _ _ Hb).
    + now rewrite Hp, He.
    + unfold missing_ids. now rewrite Hf.
  - now rewrite length_map.
  - intros i messageId Hi.
    destruct (lookup_lt_is_Some_2 raws i) as [raw Hraw].
    { rewrite Hraws. eapply lookup_lt_Some, Hi. }
    exists raw. split; [done|]. now rewrite list_lookup_fmap, Hraw.
Qed.

(** C3: entered with [retryCount > 3] the function only logs the
    unresolved ids and returns the empty list; the recursion needs no more
    than [4 - retryCount] levels, so every call returns, having issued at
    most [4 - retryCount] batch requests (4 at most from the default 0 or
    any counter that is not negative), each retry after its delay of
    [(retryCount + 1) × 1000], [(retryCount + 2) × 1000], ... ms. *)
Theorem getMessagesBatch_retry_bound messageIds accessToken retryCount (w : World) :
  (retryCount > 3 →
   getMessagesBatch messageIds accessToken retryCount w
   = Some (Ok [], mkWorld (remote w)
                    (trace w ++ [EvLog LevelError "Too many retries"
                                   (RetryFields messageIds retryCount)])))
  ∧ (∀ fuel, (Z.to_nat (4 - retryCount) < fuel)%nat →
     getMessagesBatch_rec fuel messageIds accessToken retryCount w
     = getMessagesBatch messageIds accessToken retryCount w)
  ∧ ∃ r w' added,
      getMessagesBatch messageIds accessToken retryCount w = Some (r, w')
      ∧ trace w' = trace w ++ added
      ∧ (length (batch_requests added) ≤ Z.to_nat (4 - retryCount))%nat
      ∧ (0 ≤ retryCount → (length (batch_requests added) ≤ 4)%nat)
      ∧ (length (delays added) ≤ length (batch_requests added))%nat
      ∧ delays added = backoff retryCount (length (delays added)).
Proof.
  split; [|split].
  - apply getMessagesBatch_exhausted.
  - intros fuel Hf. now apply getMessagesBatch_rec_fuel.
  - destruct (getMessagesBatch_trace (Z.to_nat (4 - retryCount)) messageIds
                accessToken retryCount w) as (r & w' & added & H1 & H2 & H3 & H4 & H5);
      [lia|].
    exists r, w', added. repeat split; try assumption. lia.
Qed.

(** C5, as the code has it: a batch of more than 100 ids raises before any
    request, log entry or delay when [retryCount ≤ 3] (the default 0
    included), and a page size above 20 always does; with [retryCount > 3]
    the retry guard comes first and the oversized batch is answered by the
    empty list, still without a request. *)
Theorem size_caps_checked_before_any_request :
  (∀ messageIds accessToken retryCount (w : World),
     (100 < length messageIds)%nat → retryCount ≤ 3 →
     getMessagesBatch messageIds accessToken retryCount w
     = Some (Throw (Error "Too many messages. Max 1000"), w))
  ∧ (∀ messageIds accessToken retryCount (w : World),
     (100 < length messageIds)%nat → retryCount > 3 →
     ∃ w', getMessagesBatch messageIds accessToken retryCount w = Some (Ok [], w')
           ∧ remote w' = remote w
           ∧ batch_requests (trace w') = batch_requests (trace w))
  ∧ (∀ accessToken query maxResults pageToken (w : World),
     maxResults > 20 →
     queryBatchMessages accessToken query (Some maxResults) pageToken w
     = Some (Throw (Error
         "Max results must be 20 or Google will rate limit us and return 429 errors."),
         w)).
Proof.
  split; [|split].
  - intros ids tok rc w Hlen Hrc. now apply getMessagesBatch_too_many.
  - intros ids tok rc w Hlen Hrc. rewrite getMessagesBatch_exhausted by done.
    eexists. split; [reflexivity|]. split; [done|].
    cbn [trace]. rewrite batch_requests_app. apply app_nil_r.
  - intros tok query maxResults pageToken w Hmax.
    unfold queryBatchMessages.
    change (default 20 (Some maxResults)) with maxResults.
    replace (maxResults >? 20) with true by lia. reflexivity.
Qed.

End BatchFetcher.

(** C2: when a response leaves ids missing, the call logs them, waits
    [(retryCount + 1) × 1000] ms, calls itself on exactly the missing ids
    with [retryCount + 1] and returns this level's parsed messages followed
    by the nested result.  Against the scripted mailbox: an id refused by
    the first two requests and served by the third is in the result, having
    been requested again after a delay of 1000 ms and once more after a
    delay of 2000 ms. *)
Theorem getMessagesBatch_retries_missing :
  (∀ (Ext : Externals) messageIds accessToken retryCount (w : World) batch rm,
     retryCount ≤ 3 → (length messageIds ≤ 100)%nat →
     getBatch messageIds batch_endpoint accessToken (remote w) = (Ok batch, rm) →
     missing_ids messageIds batch ≠ [] →
     getMessagesBatch messageIds accessToken retryCount w
     = (missingMessages ← getMessagesBatch (missing_ids messageIds batch)
                            accessToken (retryCount + 1);
        mret (parsed_of batch ++ missingMessages))
         (mkWorld rm (trace w ++
            EvGetBatch messageIds batch_endpoint accessToken :: error_log batch ++
            [EvLog LevelInfo "Missing messages"
               (MissingFields (missing_ids messageIds batch));
             EvSleep ((retryCount + 1) * 1000)])))
  ∧ (∀ (Raw Parsed : Type) (parse : Raw → Parsed) content fails
       messageIds accessToken (w : @World (Sim.externals parse content fails)) i,
     (length messageIds ≤ 100)%nat → i ∈ messageIds →
     fails (Sim.served (remote w)) i = true →
     fails (S (Sim.served (remote w))) i = true →
     fails (S (S (Sim.served (remote w)))) i = false →
     ∃ res w' t1 m1 t2 m2 t3,
       getMessagesBatch messageIds accessToken 0 w = Some (Ok res, w')
       ∧ parse (content i) ∈ res
       ∧ trace w' = trace w ++ EvGetBatch messageIds batch_endpoint accessToken :: t1
           ++ [EvSleep 1000; EvGetBatch m1 batch_endpoint accessToken] ++ t2
           ++ [EvSleep 2000; EvGetBatch m2 batch_endpoint accessToken] ++ t3
       ∧ i ∈ m1 ∧ i ∈ m2
       ∧ delays t1 = [] ∧ delays t2 = []
       ∧ batch_requests t1 = [] ∧ batch_requests t2 = []).
Proof.
  split.
  - intros Ext ids tok rc w batch rm Hrc Hlen Hb Hm.
    rewrite (getMessagesBatch_retry _ _ _ _ Hrc Hlen _ _ Hb Hm).
    now rewrite (Z.mul_comm 1000).
  - intros Raw Parsed parse content fails. apply sim_third_attempt.
Qed.

(** C4: no exception comes out of retry exhaustion.  With a transport that
    always answers item for item, a batch of at most 100 ids returns
    normally whatever fails.  Against the scripted mailbox the result holds
    the messages of exactly the requested ids that were served by one of
    the four requests; an id refused by all four is left out, and the only
    sign of it is the final ["Too many retries"] log entry, which lists
    it. *)
Theorem getMessagesBatch_abandons_quietly :
  (∀ (Ext : Externals),
     (∀ ids endpoint accessToken rm,
        ∃ batch rm', getBatch ids endpoint accessToken rm = (Ok batch, rm')
                     ∧ length batch = length ids) →
     ∀ messageIds accessToken (w : World),
       (length messageIds ≤ 100)%nat →
       ∃ res w', getMessagesBatch messageIds accessToken 0 w = Some (Ok res, w'))
  ∧ (∀ (Raw Parsed : Type) (parse : Raw → Parsed) content fails
       messageIds accessToken (w : @World (Sim.externals parse content fails)),
     (length messageIds ≤ 100)%nat →
     ∃ w' added,
       getMessagesBatch messageIds accessToken 0 w
       = Some (Ok (map (λ i, parse (content i))
                     (Sim.delivered fails 4 (Sim.served (remote w)) messageIds)), w')
       ∧ trace w' = trace w ++ added
       ∧ (∀ i, (i ∈ Sim.delivered fails 4 (Sim.served (remote w)) messageIds)
               ↔ (i ∈ messageIds
                  ∧ ∃ j, (j < 4)%nat
                         ∧ fails (Sim.served (remote w) + j)%nat i = false))
       ∧ (∀ i, i ∈ messageIds →
               (∀ j, (j < 4)%nat → fails (Sim.served (remote w) + j)%nat i = true) →
               (i ∉ Sim.delivered fails 4 (Sim.served (remote w)) messageIds)
               ∧ ∃ before remaining,
                   added = before ++ [EvLog LevelError "Too many retries"
                                        (RetryFields remaining 4)]
                   ∧ i ∈ remaining)).
Proof.
  split.
  { intros Ext Haligned ids tok w Hlen.
    apply (getMessagesBatch_no_throw Haligned (Z.to_nat 4)); [lia|exact Hlen]. }
  intros Raw Parsed parse content fails messageIds accessToken w.
  intros Hlen. set (n := Sim.served (remote w)).
  destruct (sim_run parse content fails 4 n messageIds accessToken w eq_refl Hlen)
    as (w' & added & Hrun & Htr & _ & Hab).
  exists w', added. split; [exact Hrun|]. split; [exact Htr|].
  assert (∀ i, i ∈ Sim.delivered fails 4 n messageIds
               ↔ i ∈ messageIds ∧ ∃ j, (j < 4)%nat ∧ fails (n + j)%nat i = false)
    as Hdel.
  { intros i. rewrite elem_of_delivered. split.
    - intros (Hin & j & Hj & Hf). split; [done|].
      exists (j - n)%nat. split; [lia|]. now replace (n + (j - n))%nat with j by lia.
    - intros (Hin & j & Hj & Hf). split; [done|].
      exists (n + j)%nat. split; [lia|done]. }
  split; [exact Hdel|].
  intros i Hin Hall. split.
  - rewrite Hdel. intros (_ & j & Hj & Hf). rewrite Hall in Hf; done.
  - assert (i ∈ Sim.abandoned fails 4 n messageIds) as Hi.
    { apply elem_of_abandoned. split; [done|]. intros j Hj.
      replace j with (n + (j - n))%nat by lia. apply Hall. lia. }
    destruct Hab as [before Hadded].
    { intros E. rewrite E in Hi. now apply elem_of_nil in Hi. }
    eauto.
Qed.

(** * The paginated query *)

Section PaginatedQuery.
Context `{Ext : Externals}.

Lemma queryBatchMessages_run accessToken query maxResults pageToken (w : World)
    response rm :
  default 20 maxResults ≤ 20 →
  users_messages_list
    {| userId := "me"; lp_maxResults := Some (default 20 maxResults);
       q := query; lp_pageToken := pageToken; labelIds := undefined |}
    (remote w) = (Ok response, rm) →
  queryBatchMessages accessToken query maxResults pageToken w
  = match messages response with
    | None => mret {| page_messages := []; page_nextPageToken := undefined |}
    | Some refs =>
        parsed ← getMessagesBatch
                   (map Some (filter_isDefined (map id refs))) accessToken 0;
        mret {| page_messages := parsed;
                page_nextPageToken := nextPageToken response |}
    end (mkWorld rm (trace w ++
           [EvList {| userId := "me";
                      lp_maxResults := Some (default 20 maxResults);
                      q := query; lp_pageToken := pageToken;
                      labelIds := undefined |}])).
Proof.
  intros Hmax Hlist. unfold queryBatchMessages.
  replace (default 20 maxResults >? 20) with false by lia.
  unfold getMessages.
  erewrite bind_Ok by (apply list_call_run; eassumption).
  reflexivity.
Qed.

Lemma queryBatchMessages_first_event accessToken query pageToken (w : World) r w' :
  queryBatchMessages accessToken (Some query) undefined pageToken w = Some (r, w') →
  ∃ rest, trace w' = trace w ++ EvList (page_request query pageToken) :: rest.
Proof.
  intros Hrun.
  destruct (users_messages_list (page_request query pageToken) (remote w))
    as [[response|e] rm] eqn:Hl.
  - rewrite (queryBatchMessages_run accessToken (Some query) undefined
               pageToken w response rm) in Hrun; [|done|exact Hl].
    destruct (messages response) as [refs|].
    + match type of Hrun with (_ ≫= _) ?w1 = _ => set (w1' := w1) in Hrun end.
      destruct (getMessagesBatch_trace (Z.to_nat 4)
                  (map Some (filter_isDefined (map id refs))) accessToken 0 w1')
        as (r1 & w2 & added & Hb & Htr2 & _); [lia|].
      unfold mbind, M_bind in Hrun. rewrite Hb in Hrun.
      assert (w' = w2) as -> by (destruct r1; now injection Hrun).
      exists added. rewrite Htr2. subst w1'. cbn [trace].
      now rewrite <- app_assoc.
    + injection Hrun as _ <-. now exists [].
  - unfold queryBatchMessages, getMessages in Hrun.
    change (default 20 undefined >? 20) with false in Hrun. cbv iota in Hrun.
    erewrite bind_Throw in Hrun by (apply list_call_run; exact Hl).
    injection Hrun as _ <-. now exists [].
Qed.

(** C6, as the code has it: a list response without a [messages] field
    gives the empty page, with no [nextPageToken] and nothing requested
    after the list call; a response that has the field, even as an empty
    array, has its ids handed to [getMessagesBatch] and its
    [nextPageToken] returned. *)
Theorem queryBatchMessages_no_messages_field accessToken query maxResults
    pageToken (w : World) response rm :
  default 20 maxResults ≤ 20 →
  users_messages_list
    {| userId := "me"; lp_maxResults := Some (default 20 maxResults);
       q := query; lp_pageToken := pageToken; labelIds := undefined |}
    (remote w) = (Ok response, rm) →
  let w1 := mkWorld rm (trace w ++
              [EvList {| userId := "me";
                         lp_maxResults := Some (default 20 maxResults);
                         q := query; lp_pageToken := pageToken;
                         labelIds := undefined |}]) in
  (messages response = None →
   queryBatchMessages accessToken query maxResults pageToken w
   = Some (Ok {| page_messages := []; page_nextPageToken := undefined |}, w1))
  ∧ (∀ refs, messages response = Some refs →
     queryBatchMessages accessToken query maxResults pageToken w
     = (parsed ← getMessagesBatch
                   (map Some (filter_isDefined (map id refs))) accessToken 0;
        mret {| page_messages := parsed;
                page_nextPageToken := nextPageToken response |}) w1).
Proof.
  intros Hmax Hlist w1. split.
  - intros Hnone.
    rewrite (queryBatchMessages_run _ _ _ _ _ _ _ Hmax Hlist), Hnone.
    reflexivity.
  - intros refs Hsome.
    rewrite (queryBatchMessages_run _ _ _ _ _ _ _ Hmax Hlist), Hsome.
    reflexivity.
Qed.

End PaginatedQuery.

Section Pages.
Context `{Ext : Externals}.

Lemma truthy_or_undefined (token : option string) :
  truthy (if truthy token then token else undefined) = truthy token.
Proof. now destruct (truthy token) eqn:Ht. Qed.

Lemma queryBatchMessagesPages_loop_S fuel accessToken query maxResults acc
    pageToken (w : World) page w1 :
  queryBatchMessages accessToken (Some query) undefined pageToken w
    = Some (Ok page, w1) →
  queryBatchMessagesPages_loop (S fuel) accessToken query maxResults acc
    pageToken w
  = if truthy (page_nextPageToken page)
       && (Z.of_nat (length (acc ++ page_messages page)) <? maxResults)
    then queryBatchMessagesPages_loop fuel accessToken query maxResults
           (acc ++ page_messages page) (page_nextPageToken page) w1
    else Some (Ok (acc ++ page_messages page), w1).
Proof.
  intros Hpage. cbn [queryBatchMessagesPages_loop].
  erewrite bind_Ok by exact Hpage. cbv zeta.
  rewrite truthy_or_undefined.
  destruct (truthy (page_nextPageToken page)) eqn:Ht; [|reflexivity].
  now destruct (_ <? _).
Qed.

Lemma queryBatchMessagesPages_loop_sound fuel : ∀ accessToken query maxResults
    acc pageToken (w : World) res w',
  queryBatchMessagesPages_loop fuel accessToken query maxResults acc pageToken w
    = Some (Ok res, w') →
  ∃ n, (n ≤ fuel)%nat
       ∧ PagesRun accessToken query maxResults acc pageToken w res w' n.
Proof.
  induction fuel as [|fuel IH]; intros tok query maxResults acc pageToken w res w' Hrun;
    [discriminate|].
  destruct (queryBatchMessages tok (Some query) undefined pageToken w)
    as [[[page|e] w1]|] eqn:Hpage.
  - rewrite (queryBatchMessagesPages_loop_S _ _ _ _ _ _ _ _ _ Hpage) in Hrun.
    destruct (truthy (page_nextPageToken page)) eqn:Ht; cbn [andb] in Hrun.
    + destruct (Z.ltb_spec (Z.of_nat (length (acc ++ page_messages page)))
                  maxResults) as [Hlt|Hge].
      * destruct (IH _ _ _ _ _ _ _ _ Hrun) as (n & Hn & Hpr).
        exists (S n). split; [lia|]. eapply PagesRun_more; eassumption.
      * injection Hrun as <- <-. exists 1%nat. split; [lia|].
        apply PagesRun_last; [done|]. right. lia.
    + injection Hrun as <- <-. exists 1%nat. split; [lia|].
      apply PagesRun_last; [done|]. now left.
  - cbn [queryBatchMessagesPages_loop] in Hrun.
    erewrite bind_Throw in Hrun by exact Hpage. discriminate.
  - cbn [queryBatchMessagesPages_loop] in Hrun.
    unfold mbind, M_bind in Hrun. now rewrite Hpage in Hrun.
Qed.

Lemma queryBatchMessagesPages_loop_complete accessToken query maxResults acc
    pageToken (w : World) res w' n :
  PagesRun accessToken query maxResults acc pageToken w res w' n →
  ∀ fuel, (n ≤ fuel)%nat →
  queryBatchMessagesPages_loop fuel accessToken query maxResults acc pageToken w
  = Some (Ok res, w').
Proof.
  induction 1 as [acc pageToken w page w1 Hpage Hstop
                 |acc pageToken w page w1 res w2 n Hpage Ht Hlt Hrest IH];
    intros [|fuel] Hfuel; try lia.
  - rewrite (queryBatchMessagesPages_loop_S _ _ _ _ _ _ _ _ _ Hpage).
    destruct Hstop as [->|Hge]; [reflexivity|].
    replace (_ <? _) with false by lia. now rewrite andb_false_r.
  - rewrite (queryBatchMessagesPages_loop_S _ _ _ _ _ _ _ _ _ Hpage), Ht.
    replace (_ <? _) with true by lia. cbn [andb]. apply IH. lia.
Qed.

End Pages.

(** C7: a run of [queryBatchMessagesPages] that returns is exactly a
    [PagesRun] from the empty list and no token: pages fetched one after
    the other, each with the token of the one before, every page appended
    whole, ending with the first page that has no token or brings the count
    to [maxResults]; every page request asks for 20 results.  With
    [maxResults = 45], pages of 20, 20 and 20 give 60 messages, and pages of
    20, 20 and a last one of 3 give 43. *)
Theorem queryBatchMessagesPages_accumulates :
  (∀ (Ext : Externals) fuel accessToken query maxResults (w : World) res w',
     queryBatchMessagesPages fuel accessToken query maxResults w = Some (Ok res, w')
     ↔ ∃ n, (n ≤ fuel)%nat
            ∧ PagesRun accessToken query maxResults [] undefined w res w' n)
  ∧ (∀ (Ext : Externals) accessToken query pageToken (w : World) r w',
     queryBatchMessages accessToken (Some query) undefined pageToken w
       = Some (r, w') →
     ∃ rest, trace w' = trace w ++ EvList (page_request query pageToken) :: rest)
  ∧ match @queryBatchMessagesPages Sim.plain 10 "token" "in:inbox" 45
            (Sim.start [Sim.page 0 20 (Some "t1"); Sim.page 20 20 (Some "t2");
                        Sim.page 40 20 (Some "t3")]) with
    | Some (Ok res, w') =>
        length res = 60%nat
        ∧ list_requests (trace w')
          = [page_request "in:inbox" None; page_request "in:inbox" (Some "t1");
             page_request "in:inbox" (Some "t2")]
    | _ => False
    end
  ∧ match @queryBatchMessagesPages Sim.plain 10 "token" "in:inbox" 45
            (Sim.start [Sim.page 0 20 (Some "t1"); Sim.page 20 20 (Some "t2");
                        Sim.page 40 3 None]) with
    | Some (Ok res, w') =>
        length res = 43%nat
        ∧ list_requests (trace w')
          = [page_request "in:inbox" None; page_request "in:inbox" (Some "t1");
             page_request "in:inbox" (Some "t2")]
    | _ => False
    end.
Proof.
  split; [|split; [|split]].
  - intros Ext fuel tok query maxResults w res w'. split.
    + apply queryBatchMessagesPages_loop_sound.
    + intros (n & Hn & Hrun).
      now apply (queryBatchMessagesPages_loop_complete _ _ _ _ _ _ _ _ _ Hrun).
  - intros Ext. apply queryBatchMessages_first_event.
  - vm_compute. split; reflexivity.
  - vm_compute. split; reflexivity.
Qed.

(** * Sender history *)

Section SenderHistory.
Context `{Ext : Externals}.

Lemma hasPreviousCommunicationWithSender_run options (w : World)
    incomingEmails rm1 outgoingEmails rm2 :
  users_messages_list
    (incoming_request (from options) (dateInSeconds (date options))) (remote w)
    = (Ok incomingEmails, rm1) →
  users_messages_list
    (outgoing_request (from options) (dateInSeconds (date options))) rm1
    = (Ok outgoingEmails, rm2) →
  hasPreviousCommunicationWithSender options w
  = Some (Ok (existsb (λ p, negb (bool_decide (id p = Some (messageId options))))
                (default [] (messages incomingEmails)
                 ++ default [] (messages outgoingEmails))),
          mkWorld rm2 (trace w ++
            [EvList (incoming_request (from options) (dateInSeconds (date options)));
             EvList (outgoing_request (from options) (dateInSeconds (date options)))])).
Proof.
  intros Hin Hout.
  unfold hasPreviousCommunicationWithSender, findPreviousEmailsWithSender.
  unfold mbind, M_bind, Promise_all2.
  erewrite list_call_run by exact Hin. cbn [remote].
  erewrite list_call_run by exact Hout. cbn [remote trace].
  now rewrite <- app_assoc.
Qed.

Lemma hasPreviousCommunicationsWithSenderOrDomain_term options domain :
  extractDomainFromEmail (from options) = Some domain → domain ≠ "" →
  ∀ w : World,
    hasPreviousCommunicationsWithSenderOrDomain options w
    = hasPreviousCommunicationWithSender
        {| from := searchTerm (from options) domain;
           date := date options;
           messageId := messageId options |} w.
Proof.
  intros Hdom Hne w. unfold hasPreviousCommunicationsWithSenderOrDomain.
  rewrite Hdom. cbn [truthy].
  apply String.eqb_neq in Hne. now rewrite Hne.
Qed.

(** Both searches are issued, the incoming one first, whatever they
    answer. *)
Lemma hasPreviousCommunicationWithSender_requests options (w : World) :
  ∃ r w',
    hasPreviousCommunicationWithSender options w = Some (r, w')
    ∧ trace w' = trace w ++
        [EvList (incoming_request (from options) (dateInSeconds (date options)));
         EvList (outgoing_request (from options) (dateInSeconds (date options)))].
Proof.
  destruct (users_messages_list
              (incoming_request (from options) (dateInSeconds (date options)))
              (remote w)) as [r1 rm1] eqn:Hin.
  destruct (users_messages_list
              (outgoing_request (from options) (dateInSeconds (date options)))
              rm1) as [r2 rm2] eqn:Hout.
  unfold hasPreviousCommunicationWithSender, findPreviousEmailsWithSender.
  unfold mbind, M_bind, Promise_all2.
  erewrite list_call_run by exact Hin. cbn [remote].
  erewrite list_call_run by exact Hout. cbn [remote trace].
  rewrite <- app_assoc. cbn [app].
  destruct r1 as [incomingEmails|e1], r2 as [outgoingEmails|e2];
    eexists _, _; split; reflexivity.
Qed.

(** C8: the incoming search is [from:<sender> before:<seconds>] limited to
    2 results, the outgoing one [to:<sender> before:<seconds>] limited to 1;
    when both answer, the two lists are merged and the result is true
    exactly when some returned entry has an id other than
    [options.messageId]; so it is false when every returned entry is that
    message. *)
Theorem hasPreviousCommunicationWithSender_iff options (w : World)
    incomingEmails rm1 outgoingEmails rm2 :
  users_messages_list
    {| userId := "me"; lp_maxResults := Some 2;
       q := Some ("from:" +:+ from options +:+ " before:"
                  +:+ dateInSeconds (date options));
       lp_pageToken := undefined; labelIds := undefined |} (remote w)
    = (Ok incomingEmails, rm1) →
  users_messages_list
    {| userId := "me"; lp_maxResults := Some 1;
       q := Some ("to:" +:+ from options +:+ " before:"
                  +:+ dateInSeconds (date options));
       lp_pageToken := undefined; labelIds := undefined |} rm1
    = (Ok outgoingEmails, rm2) →
  let allMessages := default [] (messages incomingEmails)
                     ++ default [] (messages outgoingEmails) in
  ∃ hasPreviousEmail,
    hasPreviousCommunicationWithSender options w
    = Some (Ok hasPreviousEmail,
            mkWorld rm2 (trace w ++
              [EvList (incoming_request (from options) (dateInSeconds (date options)));
               EvList (outgoing_request (from options) (dateInSeconds (date options)))]))
    ∧ (hasPreviousEmail = true
       ↔ ∃ p, p ∈ allMessages ∧ id p ≠ Some (messageId options))
    ∧ ((∀ p, p ∈ allMessages → id p = Some (messageId options)) →
       hasPreviousEmail = false).
Proof.
  intros Hin Hout allMessages.
  eexists. split; [exact (hasPreviousCommunicationWithSender_run _ _ _ _ _ _ Hin Hout)|].
  fold allMessages.
  assert (existsb (λ p, negb (bool_decide (id p = Some (messageId options))))
            allMessages = true
          ↔ ∃ p, p ∈ allMessages ∧ id p ≠ Some (messageId options)) as Hiff.
  { rewrite existsb_exists. split; intros (p & Hp & Hid); exists p.
    - apply list_elem_of_In in Hp. split; [done|].
      apply negb_true_iff in Hid. now apply bool_decide_eq_false in Hid.
    - split; [now apply list_elem_of_In|].
      apply negb_true_iff. now apply bool_decide_eq_false. }
  split; [exact Hiff|].
  intros Hall. apply not_true_is_false. rewrite Hiff.
  intros (p & Hp & Hid). apply Hid, Hall, Hp.
Qed.

End SenderHistory.

Lemma PUBLIC_DOMAINS_has_spec x : PUBLIC_DOMAINS_has x = true ↔ x ∈ PUBLIC_DOMAINS.
Proof. apply bool_decide_eq_true. Qed.

Lemma toLowerCase_nonempty domain : toLowerCase domain ≠ "" → domain ≠ "".
Proof. intros Hne ->. now apply Hne. Qed.

Lemma is_ascii_char_toLowerCase c :
  is_ascii_char (ascii_toLowerCase c) = is_ascii_char c.
Proof. destruct c as [[] [] [] [] [] [] [] []]; reflexivity. Qed.

Lemma ascii_only_toLowerCase s : ascii_only (toLowerCase s) = ascii_only s.
Proof.
  induction s as [|c s IH]; [done|].
  cbn [toLowerCase ascii_only]. now rewrite is_ascii_char_toLowerCase, IH.
Qed.

(** C9: when the sender has a domain (written in ASCII, where the
    lower-casing of the model is that of the code), both searches run on
    one term: the full sender address if the lower-cased domain is a member
    of [PUBLIC_DOMAINS], the bare domain otherwise; so ["a@acme.com"] is
    searched as ["acme.com"] and ["a@gmail.com"] as ["a@gmail.com"]. *)
Theorem searchTerm_by_public_domain :
  (∀ (Ext : Externals) options domain,
     extractDomainFromEmail (from options) = Some domain → domain ≠ "" →
     ascii_only domain = true →
     ∀ w : World,
       let term := if bool_decide (toLowerCase domain ∈ PUBLIC_DOMAINS)
                   then from options else domain in
       hasPreviousCommunicationsWithSenderOrDomain options w
       = hasPreviousCommunicationWithSender
           {| from := term; date := date options;
              messageId := messageId options |} w
       ∧ ∃ r w',
           hasPreviousCommunicationsWithSenderOrDomain options w = Some (r, w')
           ∧ trace w' = trace w ++
               [EvList (incoming_request term (dateInSeconds (date options)));
                EvList (outgoing_request term (dateInSeconds (date options)))])
  ∧ match @hasPreviousCommunicationsWithSenderOrDomain Sim.plain
            (@mkOptions Sim.plain "a@acme.com" 1700000000%N "cur")
            (Sim.start []) with
    | Some (_, w') =>
        list_requests (trace w')
        = [incoming_request "acme.com" "1700000000";
           outgoing_request "acme.com" "1700000000"]
    | None => False
    end
  ∧ match @hasPreviousCommunicationsWithSenderOrDomain Sim.plain
            (@mkOptions Sim.plain "a@gmail.com" 1700000000%N "cur")
            (Sim.start []) with
    | Some (_, w') =>
        list_requests (trace w')
        = [incoming_request "a@gmail.com" "1700000000";
           outgoing_request "a@gmail.com" "1700000000"]
    | None => False
    end.
Proof.
  split; [|split].
  - intros Ext options domain Hdom Hne _ w term.
    assert (hasPreviousCommunicationsWithSenderOrDomain options w
            = hasPreviousCommunicationWithSender
                {| from := term; date := date options;
                   messageId := messageId options |} w) as Heq
      by (now rewrite (hasPreviousCommunicationsWithSenderOrDomain_term _ _ Hdom Hne)).
    split; [exact Heq|]. rewrite Heq.
    apply (hasPreviousCommunicationWithSender_requests
             {| from := term; date := date options;
                messageId := messageId options |} w).
  - vm_compute. reflexivity.
  - vm_compute. reflexivity.
Qed.

(** C10: [PUBLIC_DOMAINS] holds ["@me.com"] and ["@hey.com"], not
    ["me.com"] and ["hey.com"]; a sender whose lower-cased domain is
    ["me.com"] or ["hey.com"] (such a domain is written in ASCII) therefore
    fails the membership test, and both searches, [from:] and [to:], are
    issued on its bare domain, like those of a company address. *)
Theorem me_and_hey_searched_by_domain `{Ext : Externals} options domain :
  extractDomainFromEmail (from options) = Some domain →
  toLowerCase domain = "me.com" ∨ toLowerCase domain = "hey.com" →
  (∀ w : World,
     hasPreviousCommunicationsWithSenderOrDomain options w
     = hasPreviousCommunicationWithSender
         {| from := domain; date := date options;
            messageId := messageId options |} w)
  ∧ (∀ w : World,
     ∃ r w',
       hasPreviousCommunicationsWithSenderOrDomain options w = Some (r, w')
       ∧ trace w' = trace w ++
           [EvList {| userId := "me"; lp_maxResults := Some 2;
                      q := Some ("from:" +:+ domain +:+ " before:"
                                 +:+ dateInSeconds (date options));
                      lp_pageToken := undefined; labelIds := undefined |};
            EvList {| userId := "me"; lp_maxResults := Some 1;
                      q := Some ("to:" +:+ domain +:+ " before:"
                                 +:+ dateInSeconds (date options));
                      lp_pageToken := undefined; labelIds := undefined |}])
  ∧ ascii_only domain = true
  ∧ PUBLIC_DOMAINS_has (toLowerCase domain) = false
  ∧ ("@me.com" ∈ PUBLIC_DOMAINS) ∧ ("@hey.com" ∈ PUBLIC_DOMAINS)
  ∧ ("me.com" ∉ PUBLIC_DOMAINS) ∧ ("hey.com" ∉ PUBLIC_DOMAINS).
Proof.
  intros Hdom Hlow.
  assert (PUBLIC_DOMAINS_has "me.com" = false) as Hme by (vm_compute; reflexivity).
  assert (PUBLIC_DOMAINS_has "hey.com" = false) as Hhey by (vm_compute; reflexivity).
  assert (PUBLIC_DOMAINS_has (toLowerCase domain) = false) as Hhas
    by (destruct Hlow as [-> | ->]; assumption).
  assert (domain ≠ "") as Hne
    by (apply toLowerCase_nonempty; destruct Hlow as [-> | ->]; discriminate).
  assert (∀ w : World,
            hasPreviousCommunicationsWithSenderOrDomain options w
            = hasPreviousCommunicationWithSender
                {| from := domain; date := date options;
                   messageId := messageId options |} w) as Heq.
  { intros w.
    rewrite (hasPreviousCommunicationsWithSenderOrDomain_term _ _ Hdom Hne).
    unfold searchTerm. now rewrite Hhas. }
  split; [exact Heq|]. split; [|split; [|split; [exact Hhas|]]].
  - intros w. rewrite Heq.
    apply (hasPreviousCommunicationWithSender_requests
             {| from := domain; date := date options;
                messageId := messageId options |} w).
  - rewrite <- ascii_only_toLowerCase.
    destruct Hlow as [-> | ->]; reflexivity.
  - split; [|split; [|split]].
    + apply PUBLIC_DOMAINS_has_spec. vm_compute. reflexivity.
    + apply PUBLIC_DOMAINS_has_spec. vm_compute. reflexivity.
    + intros Hin. apply PUBLIC_DOMAINS_has_spec in Hin. congruence.
    + intros Hin. apply PUBLIC_DOMAINS_has_spec in Hin. congruence.
Qed.

(** * Worked instances *)

(** Two ids, both served by the first request. *)
Lemma getMessagesBatch_no_failures_witness :
  ∃ res,
    @getMessagesBatch Sim.plain [Some "a"; Some "b"] "token" 0 (Sim.start [])
    = Some (Ok res, @mkWorld Sim.plain (Sim.mkState 1 [])
                      [EvGetBatch [Some "a"; Some "b"] batch_endpoint "token"])
    ∧ res = [Some "a"; Some "b"]
    ∧ length res = 2%nat
    ∧ ∀ i messageId, [Some "a"; Some "b"] !! i = Some messageId →
        ∃ raw, [Some "a"; Some "b"] !! i = Some raw ∧ res !! i = Some raw.
Proof.
  apply (@getMessagesBatch_no_failures Sim.plain [Some "a"; Some "b"] "token"
           (Sim.start []) [Some "a"; Some "b"] (Sim.mkState 1 []));
    [cbn; lia | reflexivity | reflexivity].
Defined.

(** ["b"] is refused twice by the flaky mailbox and then served. *)
Lemma getMessagesBatch_retries_missing_witness :
  ∃ res w' t1 m1 t2 m2 t3,
    @getMessagesBatch Sim.flaky [Some "a"; Some "b"] "token" 0 Sim.flaky_start
    = Some (Ok res, w')
    ∧ Some "b" ∈ res
    ∧ trace w' = trace Sim.flaky_start
        ++ EvGetBatch [Some "a"; Some "b"] batch_endpoint "token" :: t1
        ++ [EvSleep 1000; EvGetBatch m1 batch_endpoint "token"] ++ t2
        ++ [EvSleep 2000; EvGetBatch m2 batch_endpoint "token"] ++ t3
    ∧ Some "b" ∈ m1 ∧ Some "b" ∈ m2
    ∧ delays t1 = [] ∧ delays t2 = []
    ∧ batch_requests t1 = [] ∧ batch_requests t2 = [].
Proof.
  apply (proj2 getMessagesBatch_retries_missing MessageId MessageId
           (λ i, i) (λ i, i) Sim.flaky_fails [Some "a"; Some "b"] "token"
           Sim.flaky_start (Some "b"));
    [cbn; lia | apply list_elem_of_In; simpl; tauto
    | reflexivity | reflexivity | reflexivity].
Defined.

(** Entered with [retryCount = 4], nothing is requested. *)
Lemma getMessagesBatch_retry_bound_witness :
  @getMessagesBatch Sim.flaky [Some "c"] "token" 4 Sim.flaky_start
  = Some (Ok [], @mkWorld Sim.flaky (Sim.mkState 0 [])
                   [EvLog LevelError "Too many retries"
                      (RetryFields [Some "c"] 4)]).
Proof.
  apply (proj1 (@getMessagesBatch_retry_bound Sim.flaky [Some "c"] "token" 4
                  Sim.flaky_start)).
  lia.
Defined.

(** ["c"] is refused four times: it is dropped, ["a"] and ["b"] arrive. *)
Lemma getMessagesBatch_abandons_quietly_witness :
  ∃ w' added,
    @getMessagesBatch Sim.flaky [Some "a"; Some "b"; Some "c"] "token" 0
      Sim.flaky_start
    = Some (Ok [Some "a"; Some "b"], w')
    ∧ trace w' = added
    ∧ ∃ before remaining,
        added = before ++ [EvLog LevelError "Too many retries"
                             (RetryFields remaining 4)]
        ∧ Some "c" ∈ remaining.
Proof.
  destruct (proj2 getMessagesBatch_abandons_quietly MessageId MessageId
              (λ i, i) (λ i, i) Sim.flaky_fails
              [Some "a"; Some "b"; Some "c"] "token" Sim.flaky_start)
    as (w' & added & Hrun & Htr & _ & Hdrop); [cbn; lia|].
  exists w', added. split; [exact Hrun|]. split; [exact Htr|].
  apply (Hdrop (Some "c")).
  - apply list_elem_of_In. simpl. tauto.
  - intros [|[|[|[|j]]]] Hj; first [reflexivity | lia].
Defined.

(** 101 ids with the default [retryCount]; a page of 21. *)
Lemma size_caps_checked_before_any_request_witness :
  @getMessagesBatch Sim.plain (replicate 101 (Some "m")) "token" 0 (Sim.start [])
  = Some (Throw (Error "Too many messages. Max 1000"), Sim.start [])
  ∧ @queryBatchMessages Sim.plain "token" (Some "in:inbox") (Some 21) None
      (Sim.start [])
    = Some (Throw (Error
        "Max results must be 20 or Google will rate limit us and return 429 errors."),
        Sim.start []).
Proof.
  split.
  - apply (proj1 (@size_caps_checked_before_any_request Sim.plain)); [cbn|]; lia.
  - apply (proj2 (proj2 (@size_caps_checked_before_any_request Sim.plain))). lia.
Defined.

(** C5 as stated fails: 101 ids entered with [retryCount = 4] are answered
    by the empty list, not by an exception. *)
Lemma oversized_batch_after_retries_returns :
  ¬ (∀ (Ext : Externals) messageIds accessToken retryCount (w : World),
       (100 < length messageIds)%nat →
       ∃ e, getMessagesBatch messageIds accessToken retryCount w
            = Some (Throw e, w)).
Proof.
  intros Hclaim.
  destruct (Hclaim Sim.plain (replicate 101 (Some "m")) "token" 4 (Sim.start []))
    as [e Hrun]; [cbn; lia|].
  vm_compute in Hrun. discriminate.
Qed.

(** A list response without a [messages] field. *)
Lemma queryBatchMessages_no_messages_field_witness :
  @queryBatchMessages Sim.plain "token" (Some "in:inbox") None None (Sim.start [])
  = Some (Ok {| page_messages := []; page_nextPageToken := None |},
          @mkWorld Sim.plain (Sim.mkState 0 [])
            [EvList (page_request "in:inbox" None)]).
Proof.
  apply (proj1 (@queryBatchMessages_no_messages_field Sim.plain "token"
                  (Some "in:inbox") None None (Sim.start [])
                  {| messages := None; nextPageToken := None |}
                  (Sim.mkState 0 []) ltac:(cbn; lia) eq_refl)).
  reflexivity.
Defined.

(** C6 as stated fails: a list response whose [messages] array is empty is
    still sent to the batch fetcher, and its [nextPageToken] comes back. *)
Lemma queryBatchMessages_empty_array_is_fetched :
  ¬ (∀ (Ext : Externals) accessToken query pageToken (w : World) response rm,
       users_messages_list (page_request query pageToken) (remote w)
         = (Ok response, rm) →
       filter_isDefined (map id (default [] (messages response))) = [] →
       ∃ w', queryBatchMessages accessToken (Some query) None pageToken w
             = Some (Ok {| page_messages := []; page_nextPageToken := None |}, w')
             ∧ batch_requests (trace w') = batch_requests (trace w)).
Proof.
  intros Hclaim.
  destruct (Hclaim Sim.plain "token" "in:inbox" None
              (Sim.start [{| messages := Some []; nextPageToken := Some "next" |}])
              {| messages := Some []; nextPageToken := Some "next" |}
              (Sim.mkState 0 []) eq_refl eq_refl)
    as (w' & Hrun & _).
  vm_compute in Hrun. discriminate.
Qed.

(** An empty mailbox: one page, no token. *)
Lemma queryBatchMessagesPages_accumulates_witness :
  ∃ n, (n ≤ 10)%nat
       ∧ @PagesRun Sim.plain "token" "in:inbox" 45 [] None (Sim.start []) []
           (@mkWorld Sim.plain (Sim.mkState 0 [])
              [EvList (page_request "in:inbox" None)]) n.
Proof.
  apply (proj1 (proj1 queryBatchMessagesPages_accumulates Sim.plain 10%nat "token"
                  "in:inbox" 45 (Sim.start []) []
                  (@mkWorld Sim.plain (Sim.mkState 0 [])
                     [EvList (page_request "in:inbox" None)]))).
  reflexivity.
Defined.

(** The only message found is the current one. *)
Lemma hasPreviousCommunicationWithSender_iff_witness :
  ∃ w', @hasPreviousCommunicationWithSender Sim.plain
          (@mkOptions Sim.plain "a@gmail.com" 1700000000%N "cur")
          (Sim.start [{| messages := Some [mkMessageRef (Some "cur")];
                         nextPageToken := None |}])
        = Some (Ok false, w').
Proof.
  destruct (@hasPreviousCommunicationWithSender_iff Sim.plain
              (@mkOptions Sim.plain "a@gmail.com" 1700000000%N "cur")
              (Sim.start [{| messages := Some [mkMessageRef (Some "cur")];
                             nextPageToken := None |}])
              {| messages := Some [mkMessageRef (Some "cur")];
                 nextPageToken := None |} (Sim.mkState 0 [])
              {| messages := None; nextPageToken := None |} (Sim.mkState 0 [])
              eq_refl eq_refl)
    as (b & Hrun & _ & Hfalse).
  eexists. rewrite Hrun. rewrite Hfalse; [reflexivity|].
  intros p Hp. apply list_elem_of_In in Hp. simpl in Hp.
  destruct Hp as [<-|[]]. reflexivity.
Defined.

(** A company address in the scripted mailbox. *)
Lemma searchTerm_by_public_domain_witness :
  ∃ r w',
    @hasPreviousCommunicationsWithSenderOrDomain Sim.plain
      (@mkOptions Sim.plain "a@acme.com" 1700000000%N "cur") (Sim.start [])
    = Some (r, w')
    ∧ trace w' = [EvList (incoming_request "acme.com" "1700000000");
                  EvList (outgoing_request "acme.com" "1700000000")].
Proof.
  assert ("acme.com" ≠ "") as Hne by discriminate.
  apply (proj2 (proj1 searchTerm_by_public_domain Sim.plain
                  (@mkOptions Sim.plain "a@acme.com" 1700000000%N "cur")
                  "acme.com" eq_refl Hne eq_refl (Sim.start []))).
Defined.

(** An address at me.com. *)
Lemma me_and_hey_searched_by_domain_witness :
  ∃ r w',
    @hasPreviousCommunicationsWithSenderOrDomain Sim.plain
      (@mkOptions Sim.plain "bob@Me.com" 1700000000%N "cur") (Sim.start [])
    = Some (r, w')
    ∧ trace w' = [EvList (incoming_request "Me.com" "1700000000");
                  EvList (outgoing_request "Me.com" "1700000000")].
Proof.
  apply (proj1 (proj2 (@me_and_hey_searched_by_domain Sim.plain
                         (@mkOptions Sim.plain "bob@Me.com" 1700000000%N "cur")
                         "Me.com" eq_refl (or_introl eq_refl)))
           (Sim.start [])).
Defined.

(** * Further properties of the batch fetcher *)

Section BatchRuns.
Context `{Ext : Externals}.

Lemma bind_with_parsed (m : M (list ParsedMessage)) parsed (w : World) r w' :
  m w = Some (r, w') →
  (missingMessages ← m; mret (parsed ++ missingMessages)) w
  = Some (with_parsed parsed r, w').
Proof. intros Hm. unfold mbind, M_bind. rewrite Hm. now destruct r. Qed.

(** Every call is one of the runs. *)
Lemma getMessagesBatch_is_run n : ∀ messageIds accessToken retryCount (w : World),
  (Z.to_nat (4 - retryCount) ≤ n)%nat →
  ∃ r w', getMessagesBatch messageIds accessToken retryCount w = Some (r, w')
          ∧ BatchRun accessToken messageIds retryCount w r w'.
Proof.
  induction n as [|n IH]; intros ids tok rc w Hn.
  - rewrite getMessagesBatch_exhausted by lia.
    eexists _, _. split; [reflexivity|]. constructor. lia.
  - destruct (Z_gt_le_dec rc 3) as [Hrc|Hrc].
    { rewrite getMessagesBatch_exhausted by lia.
      eexists _, _. split; [reflexivity|]. now constructor. }
    destruct (le_lt_dec (length ids) 100) as [Hlen|Hlen].
    2:{ rewrite getMessagesBatch_too_many by lia.
        eexists _, _. split; [reflexivity|]. now constructor. }
    destruct (getBatch ids batch_endpoint tok (remote w)) as [[batch|e] rm] eqn:Hb.
    2:{ rewrite (getMessagesBatch_transport _ _ _ _ Hrc Hlen _ _ Hb).
        eexists _, _. split; [reflexivity|]. now apply BatchRun_transport. }
    destruct (decide (missing_ids ids batch = [])) as [Hm|Hm].
    { rewrite (getMessagesBatch_complete _ _ _ _ Hrc Hlen _ _ Hb Hm).
      eexists _, _. split; [reflexivity|]. now apply BatchRun_complete. }
    rewrite (getMessagesBatch_retry _ _ _ _ Hrc Hlen _ _ Hb Hm).
    match goal with |- context [(_ ≫= _) ?w2] => set (w2' := w2) end.
    destruct (IH (missing_ids ids batch) tok (rc + 1) w2' ltac:(lia))
      as (r & w3 & Hrun & Hrel).
    rewrite (bind_with_parsed _ _ _ _ _ Hrun).
    eexists _, _. split; [reflexivity|].
    exact (BatchRun_retry tok ids rc w batch rm r w3 Hrc Hlen Hb Hm Hrel).
Qed.

Lemma getMessagesBatch_run messageIds accessToken retryCount (w : World) r w' :
  getMessagesBatch messageIds accessToken retryCount w = Some (r, w') →
  BatchRun accessToken messageIds retryCount w r w'.
Proof.
  intros Hrun.
  destruct (getMessagesBatch_is_run (Z.to_nat (4 - retryCount)) messageIds
              accessToken retryCount w) as (r0 & w0 & Hrun0 & Hrel); [lia|].
  rewrite Hrun in Hrun0. now injection Hrun0 as <- <-.
Qed.

Lemma NoDup_Set_add x s : NoDup s → NoDup (Set_add x s).
Proof.
  intros Hs. unfold Set_add. destruct (decide (x ∈ s)) as [Hin|Hnin]; [done|].
  apply NoDup_app. split; [done|]. split; [|apply NoDup_singleton].
  intros y Hy Hy'. apply list_elem_of_singleton in Hy'. now subst.
Qed.

Lemma NoDup_Set_add_all l : ∀ s, NoDup s → NoDup (Set_add_all l s).
Proof.
  unfold Set_add_all. induction l as [|x l IH]; intros s Hs; cbn [foldl]; [done|].
  now apply IH, NoDup_Set_add.
Qed.

Lemma NoDup_missing_ids messageIds batch : NoDup (missing_ids messageIds batch).
Proof. apply NoDup_Set_add_all, NoDup_nil_2. Qed.

Lemma batch_requests_level messageIds accessToken batch (tail : list Event) :
  batch_requests (EvGetBatch messageIds batch_endpoint accessToken
                    :: error_log batch ++ tail)
  = messageIds :: batch_requests tail.
Proof.
  change (EvGetBatch messageIds batch_endpoint accessToken
            :: error_log batch ++ tail)
    with ([EvGetBatch messageIds batch_endpoint accessToken]
            ++ error_log batch ++ tail).
  now rewrite !batch_requests_app, batch_requests_error_log.
Qed.

(** What a run adds to the trace, seen through its batch requests: the
    first request, if any, is for the ids given; every request is within
    the cap; every retry request is free of duplicates. *)
Lemma BatchRun_requests accessToken messageIds retryCount (w : World) r w' :
  BatchRun accessToken messageIds retryCount w r w' →
  ∃ added,
    trace w' = trace w ++ added
    ∧ Forall (λ ids, (length ids ≤ 100)%nat) (batch_requests added)
    ∧ (batch_requests added = []
       ∨ ∃ retries, batch_requests added = messageIds :: retries
                    ∧ Forall NoDup retries)
    ∧ (retryCount ≤ 3 → (length messageIds ≤ 100)%nat →
       batch_requests added ≠ []).
Proof.
  induction 1 as [ids rc w Hrc
                 |ids rc w Hrc Hlen
                 |ids rc w e rm Hrc Hlen Hb
                 |ids rc w batch rm Hrc Hlen Hb Hm
                 |ids rc w batch rm r w' Hrc Hlen Hb Hm Hrun IH].
  - eexists. split; [reflexivity|]. cbn. repeat split; [constructor|now left|lia].
  - exists []. rewrite app_nil_r. cbn. repeat split; [constructor|now left|lia].
  - eexists. split; [reflexivity|]. cbn.
    repeat split; [constructor; [lia|constructor]|right; eauto|done].
  - eexists. split; [reflexivity|].
    rewrite <- (app_nil_r (error_log batch)), batch_requests_level. cbn.
    repeat split; [constructor; [lia|constructor]|right; eauto|done].
  - destruct IH as (added & Htr & Hcap & Hshape & _).
    cbn [trace] in Htr.
    eexists. split; [rewrite Htr, <- app_assoc; reflexivity|].
    cbn [app]. rewrite <- app_assoc, batch_requests_level.
    match goal with |- context [batch_requests (?t ++ added)] =>
      change (batch_requests (t ++ added)) with (batch_requests added) end.
    repeat split.
    + constructor; [lia|exact Hcap].
    + right. eexists. split; [reflexivity|].
      destruct Hshape as [->|(retries & -> & Hnd)]; [constructor|].
      constructor; [apply NoDup_missing_ids|exact Hnd].
    + done.
Qed.

(** X1: whatever the remote answers, no batch request made by
    [getMessagesBatch] carries more than 100 ids. *)
Theorem getMessagesBatch_requests_within_cap messageIds accessToken retryCount
    (w : World) :
  ∃ r w' added,
    getMessagesBatch messageIds accessToken retryCount w = Some (r, w')
    ∧ trace w' = trace w ++ added
    ∧ Forall (λ ids, (length ids ≤ 100)%nat) (batch_requests added).
Proof.
  destruct (getMessagesBatch_is_run (Z.to_nat (4 - retryCount)) messageIds
              accessToken retryCount w) as (r & w' & Hrun & Hrel); [lia|].
  destruct (BatchRun_requests _ _ _ _ _ _ Hrel) as (added & Htr & Hcap & _).
  now exists r, w', added.
Qed.

(** X2: the first request is always for the ids given, and every later
    request, a retry, lists each id once: an id that failed at several
    positions of a response is asked for again only once. *)
Theorem getMessagesBatch_retries_without_duplicates messageIds accessToken
    retryCount (w : World) :
  ∃ r w' added,
    getMessagesBatch messageIds accessToken retryCount w = Some (r, w')
    ∧ trace w' = trace w ++ added
    ∧ (batch_requests added = []
       ∨ ∃ retries, batch_requests added = messageIds :: retries
                    ∧ Forall NoDup retries).
Proof.
  destruct (getMessagesBatch_is_run (Z.to_nat (4 - retryCount)) messageIds
              accessToken retryCount w) as (r & w' & Hrun & Hrel); [lia|].
  destruct (BatchRun_requests _ _ _ _ _ _ Hrel) as (added & Htr & _ & Hshape & _).
  now exists r, w', added.
Qed.

(** X3: there is no shortcut for an empty id list: with [retryCount ≤ 3]
    an empty [messageIds] is still sent to [getBatch], and an empty
    response to it gives the empty result after that single request. *)
Theorem getMessagesBatch_empty_list_is_requested accessToken retryCount
    (w : World) :
  retryCount ≤ 3 →
  (∃ r w' added,
     getMessagesBatch [] accessToken retryCount w = Some (r, w')
     ∧ trace w' = trace w ++ EvGetBatch [] batch_endpoint accessToken :: added)
  ∧ (∀ rm, getBatch [] batch_endpoint accessToken (remote w) = (Ok [], rm) →
     getMessagesBatch [] accessToken retryCount w
     = Some (Ok [], mkWorld rm (trace w ++
               [EvGetBatch [] batch_endpoint accessToken]))).
Proof.
  intros Hrc.
  assert (length (@nil MessageId) ≤ 100)%nat as Hlen by (cbn; lia).
  split.
  - destruct (getBatch [] batch_endpoint accessToken (remote w))
      as [[batch|e] rm] eqn:Hb.
    + destruct (decide (missing_ids [] batch = [])) as [Hm|Hm].
      * rewrite (getMessagesBatch_complete _ _ _ _ Hrc Hlen _ _ Hb Hm). eauto.
      * rewrite (getMessagesBatch_retry _ _ _ _ Hrc Hlen _ _ Hb Hm).
        match goal with |- context [(_ ≫= _) ?w2] => set (w2' := w2) end.
        destruct (getMessagesBatch_trace (Z.to_nat (4 - (retryCount + 1)))
                    (missing_ids [] batch) accessToken (retryCount + 1) w2')
          as (r & w3 & added & Hrun & Htr & _); [lia|].
        rewrite (bind_with_parsed _ _ _ _ _ Hrun).
        eexists _, _, _. split; [reflexivity|].
        rewrite Htr. subst w2'. cbn [trace].
        rewrite <- app_assoc. reflexivity.
    + rewrite (getMessagesBatch_transport _ _ _ _ Hrc Hlen _ _ Hb).
      now exists (Throw e), (mkWorld rm (trace w ++
        [EvGetBatch [] batch_endpoint accessToken])), [].
  - intros rm Hb.
    now rewrite (getMessagesBatch_complete _ _ _ _ Hrc Hlen _ _ Hb eq_refl).
Qed.

(** X4: when a retry request itself fails (the transport throws), the
    whole call throws that error: the messages already parsed from the
    first response are not returned. *)
Theorem getMessagesBatch_retry_error_drops_parsed messageIds accessToken
    retryCount (w : World) batch rm e rm' :
  retryCount + 1 ≤ 3 → (length messageIds ≤ 100)%nat →
  getBatch messageIds batch_endpoint accessToken (remote w) = (Ok batch, rm) →
  missing_ids messageIds batch ≠ [] →
  (length (missing_ids messageIds batch) ≤ 100)%nat →
  getBatch (missing_ids messageIds batch) batch_endpoint accessToken rm
    = (Throw e, rm') →
  getMessagesBatch messageIds accessToken retryCount w
  = Some (Throw e,
          mkWorld rm' (trace w ++
            EvGetBatch messageIds batch_endpoint accessToken :: error_log batch ++
            [EvLog LevelInfo "Missing messages"
               (MissingFields (missing_ids messageIds batch));
             EvSleep (1000 * (retryCount + 1));
             EvGetBatch (missing_ids messageIds batch) batch_endpoint
               accessToken])).
Proof.
  intros Hrc Hlen Hb Hm Hlen' Hb'.
  assert (retryCount ≤ 3) as Hrc0 by lia.
  rewrite (getMessagesBatch_retry _ _ _ _ Hrc0 Hlen _ _ Hb Hm).
  erewrite bind_Throw.
  2:{ apply (getMessagesBatch_transport _ _ _ _ Hrc Hlen'). exact Hb'. }
  cbn [trace]. repeat (rewrite <- app_assoc || rewrite <- app_comm_cons).
  reflexivity.
Qed.



(** X6: from the default counter the delays of a call are the first few of
    1000, 2000, 3000, 4000 ms, so a call never waits more than 10 seconds
    in total. *)
Theorem getMessagesBatch_waits_at_most_ten_seconds messageIds accessToken
    (w : World) :
  ∃ r w' added,
    getMessagesBatch messageIds accessToken 0 w = Some (r, w')
    ∧ trace w' = trace w ++ added
    ∧ delays added `prefix_of` [1000; 2000; 3000; 4000]
    ∧ foldr Z.add 0 (delays added) ≤ 10000.
Proof.
  destruct (getMessagesBatch_trace (Z.to_nat 4) messageIds accessToken 0 w)
    as (r & w' & added & Hrun & Htr & Hreq & Hdel & Hback); [lia|].
  exists r, w', added. split; [exact Hrun|]. split; [exact Htr|].
  rewrite Hback.
  assert (length (delays added) ≤ 4)%nat as Hn by (cbn in Hreq; lia).
  destruct (length (delays added)) as [|[|[|[|[|n]]]]]; try lia; cbn;
    (split; [|lia]).
  - now exists [1000; 2000; 3000; 4000].
  - now exists [2000; 3000; 4000].
  - now exists [3000; 4000].
  - now exists [4000].
  - now exists [].
Qed.

End BatchRuns.

(** ** A transport whose responses are never longer than the request *)

Section NotLonger.
Context `{Ext : Externals}.

Lemma length_parsed_failed messageIds batch : ∀ i,
  (length (parsed_of batch) + length (failed_ids messageIds i batch)
   = length batch)%nat.
Proof.
  induction batch as [|[m|c e] rest IH]; intros i; cbn; [done| |];
    specialize (IH (S i)); lia.
Qed.

Lemma failed_ids_given messageIds batch : ∀ i,
  (i + length batch ≤ length messageIds)%nat →
  ∀ x, x ∈ failed_ids messageIds i batch → x ∈ messageIds.
Proof.
  induction batch as [|[m|c e] rest IH]; intros i Hlen x Hx; cbn in *.
  - now apply elem_of_nil in Hx.
  - apply (IH (S i)); [lia|done].
  - apply elem_of_cons in Hx as [->|Hx]; [|apply (IH (S i)); [lia|done]].
    unfold js_index.
    destruct (lookup_lt_is_Some_2 messageIds i) as [y Hy]; [lia|].
    rewrite Hy. now apply list_elem_of_lookup_2 in Hy.
Qed.

Lemma missing_ids_given messageIds batch :
  (length batch ≤ length messageIds)%nat →
  missing_ids messageIds batch ⊆ messageIds.
Proof.
  intros Hlen x Hx. unfold missing_ids in Hx.
  apply elem_of_Set_add_all in Hx as [Hx|Hx]; [|now apply elem_of_nil in Hx].
  now apply (failed_ids_given messageIds batch 0).
Qed.

Hypothesis not_longer : ∀ ids endpoint accessToken rm batch rm',
  getBatch ids endpoint accessToken rm = (Ok batch, rm') →
  (length batch ≤ length ids)%nat.

Lemma BatchRun_not_longer accessToken messageIds retryCount (w : World) r w' :
  BatchRun accessToken messageIds retryCount w r w' →
  (∀ res, r = Ok res → (length res ≤ length messageIds)%nat)
  ∧ ∃ added, trace w' = trace w ++ added
             ∧ Forall (λ ids, ids ⊆ messageIds) (batch_requests added).
Proof.
  induction 1 as [ids rc w Hrc
                 |ids rc w Hrc Hlen
                 |ids rc w e rm Hrc Hlen Hb
                 |ids rc w batch rm Hrc Hlen Hb Hm
                 |ids rc w batch rm r w' Hrc Hlen Hb Hm Hrun IH].
  - split; [intros res [= <-]; cbn; lia|].
    eexists. split; [reflexivity|]. constructor.
  - split; [discriminate|]. exists []. rewrite app_nil_r. split; [done|constructor].
  - split; [discriminate|]. eexists. split; [reflexivity|].
    cbn. constructor; [done|constructor].
  - pose proof (not_longer _ _ _ _ _ _ Hb) as Hnl.
    pose proof (length_parsed_failed ids batch 0).
    split; [intros res [= <-]; lia|].
    eexists. split; [reflexivity|].
    rewrite <- (app_nil_r (error_log batch)), batch_requests_level.
    cbn. constructor; [done|constructor].
  - pose proof (not_longer _ _ _ _ _ _ Hb) as Hnl.
    pose proof (length_parsed_failed ids batch 0) as Hpf.
    pose proof (length_Set_add_all (failed_ids ids 0 batch) []) as Hset.
    fold (missing_ids ids batch) in Hset. cbn [length] in Hset.
    pose proof (missing_ids_given ids batch Hnl) as Hsub.
    destruct IH as (Hres & added & Htr & Hreqs). split.
    + intros res Hr. destruct r as [rest|e]; [|discriminate].
      injection Hr as <-. specialize (Hres rest eq_refl).
      rewrite length_app. lia.
    + cbn [trace] in Htr.
      eexists. split; [rewrite Htr, <- app_assoc; reflexivity|].
      cbn [app]. rewrite <- app_assoc, batch_requests_level.
      match goal with |- context [batch_requests (?t ++ added)] =>
        change (batch_requests (t ++ added)) with (batch_requests added) end.
      constructor; [done|].
      eapply Forall_impl; [exact Hreqs|].
      intros l Hl x Hx. apply Hsub, Hl, Hx.
Qed.

End NotLonger.

(** X7: with a transport whose responses are never longer than the
    request, a call never returns more messages than ids were given. *)
Theorem getMessagesBatch_result_within_request `{Ext : Externals} :
  (∀ ids endpoint accessToken rm batch rm',
     getBatch ids endpoint accessToken rm = (Ok batch, rm') →
     (length batch ≤ length ids)%nat) →
  ∀ messageIds accessToken retryCount (w : World),
    ∃ r w', getMessagesBatch messageIds accessToken retryCount w = Some (r, w')
            ∧ ∀ res, r = Ok res → (length res ≤ length messageIds)%nat.
Proof.
  intros Hnl ids tok rc w.
  destruct (getMessagesBatch_is_run (Z.to_nat (4 - rc)) ids tok rc w)
    as (r & w' & Hrun & Hrel); [lia|].
  exists r, w'. split; [exact Hrun|].
  apply (BatchRun_not_longer Hnl _ _ _ _ _ _ Hrel).
Qed.

(** X8: with such a transport, every batch request of a call asks only for
    ids that the caller gave: a retry never brings in a new id. *)
Theorem getMessagesBatch_requests_only_given_ids `{Ext : Externals} :
  (∀ ids endpoint accessToken rm batch rm',
     getBatch ids endpoint accessToken rm = (Ok batch, rm') →
     (length batch ≤ length ids)%nat) →
  ∀ messageIds accessToken retryCount (w : World),
    ∃ r w' added,
      getMessagesBatch messageIds accessToken retryCount w = Some (r, w')
      ∧ trace w' = trace w ++ added
      ∧ Forall (λ ids, ids ⊆ messageIds) (batch_requests added).
Proof.
  intros Hnl ids tok rc w.
  destruct (getMessagesBatch_is_run (Z.to_nat (4 - rc)) ids tok rc w)
    as (r & w' & Hrun & Hrel); [lia|].
  destruct (BatchRun_not_longer Hnl _ _ _ _ _ _ Hrel) as (_ & added & Htr & Hreq).
  now exists r, w', added.
Qed.

(** * Further properties of the paginated query *)

Section PageFetch.
Context `{Ext : Externals}.

(** X9: when the list request fails, [queryBatchMessages] throws that
    error and makes no batch request. *)
Theorem queryBatchMessages_list_error accessToken query maxResults pageToken
    (w : World) e rm :
  default 20 maxResults ≤ 20 →
  users_messages_list
    {| userId := "me"; lp_maxResults := Some (default 20 maxResults);
       q := query; lp_pageToken := pageToken; labelIds := undefined |}
    (remote w) = (Throw e, rm) →
  queryBatchMessages accessToken query maxResults pageToken w
  = Some (Throw e,
          mkWorld rm (trace w ++
            [EvList {| userId := "me";
                       lp_maxResults := Some (default 20 maxResults);
                       q := query; lp_pageToken := pageToken;
                       labelIds := undefined |}])).
Proof.
  intros Hmax Hlist. unfold queryBatchMessages, getMessages.
  replace (default 20 maxResults >? 20) with false by lia.
  erewrite bind_Throw; [reflexivity|]. now apply list_call_run.
Qed.

(** X10: a page that comes back with more than 100 ids (a remote that
    ignores the limit asked for) makes [queryBatchMessages] throw the batch
    size error, after the list request and before any batch request. *)
Theorem queryBatchMessages_oversized_page accessToken query maxResults pageToken
    (w : World) response rm refs :
  default 20 maxResults ≤ 20 →
  users_messages_list
    {| userId := "me"; lp_maxResults := Some (default 20 maxResults);
       q := query; lp_pageToken := pageToken; labelIds := undefined |}
    (remote w) = (Ok response, rm) →
  messages response = Some refs →
  (100 < length (filter_isDefined (map id refs)))%nat →
  queryBatchMessages accessToken query maxResults pageToken w
  = Some (Throw (Error "Too many messages. Max 1000"),
          mkWorld rm (trace w ++
            [EvList {| userId := "me";
                       lp_maxResults := Some (default 20 maxResults);
                       q := query; lp_pageToken := pageToken;
                       labelIds := undefined |}])).
Proof.
  intros Hmax Hlist Hrefs Hlen.
  rewrite (queryBatchMessages_run _ _ _ _ _ _ _ Hmax Hlist), Hrefs.
  erewrite bind_Throw; [reflexivity|].
  apply getMessagesBatch_too_many; [lia|]. now rewrite length_map.
Qed.

Lemma BatchRun_first_event accessToken messageIds retryCount (w : World) r w' :
  BatchRun accessToken messageIds retryCount w r w' →
  retryCount ≤ 3 → (length messageIds ≤ 100)%nat →
  ∃ post, trace w' = trace w ++
            EvGetBatch messageIds batch_endpoint accessToken :: post.
Proof.
  destruct 1 as [ids rc w Hrc
                |ids rc w Hrc Hlen
                |ids rc w e rm Hrc Hlen Hb
                |ids rc w batch rm Hrc Hlen Hb Hm
                |ids rc w batch rm r w' Hrc Hlen Hb Hm Hrun];
    intros Hrc' Hlen'; try lia.
  - now exists [].
  - now exists (error_log batch).
  - destruct (BatchRun_requests _ _ _ _ _ _ Hrun) as (added & Htr & _).
    cbn [trace] in Htr. eexists. rewrite Htr, <- app_assoc. reflexivity.
Qed.

Lemma elem_of_filter_isDefined {A} (l : list (option A)) x :
  x ∈ filter_isDefined l ↔ Some x ∈ l.
Proof.
  unfold filter_isDefined. rewrite list_elem_of_omap. split.
  - intros (y & Hy & ->). exact Hy.
  - intros Hx. now exists (Some x).
Qed.

Lemma length_filter_isDefined {A} (l : list (option A)) :
  (length (filter_isDefined l) ≤ length l)%nat.
Proof.
  unfold filter_isDefined. induction l as [|[x|] l IH]; cbn; lia.
Qed.

(** X11: the entries of a page that have no id are skipped: the batch
    request that follows the list request asks for exactly the ids present,
    and [undefined] is not among them. *)
Theorem queryBatchMessages_requests_present_ids accessToken query maxResults
    pageToken (w : World) response rm refs :
  default 20 maxResults ≤ 20 →
  users_messages_list
    {| userId := "me"; lp_maxResults := Some (default 20 maxResults);
       q := query; lp_pageToken := pageToken; labelIds := undefined |}
    (remote w) = (Ok response, rm) →
  messages response = Some refs →
  (length (filter_isDefined (map id refs)) ≤ 100)%nat →
  ∃ r w' requested post,
    queryBatchMessages accessToken query maxResults pageToken w = Some (r, w')
    ∧ trace w' = trace w ++
        EvList {| userId := "me";
                  lp_maxResults := Some (default 20 maxResults);
                  q := query; lp_pageToken := pageToken; labelIds := undefined |}
        :: EvGetBatch requested batch_endpoint accessToken :: post
    ∧ requested = map Some (filter_isDefined (map id refs))
    ∧ (∀ i, (Some i ∈ requested) ↔ ∃ p, p ∈ refs ∧ id p = Some i)
    ∧ (undefined ∉ requested)
    ∧ (length requested ≤ length refs)%nat.
Proof.
  intros Hmax Hlist Hrefs Hlen.
  rewrite (queryBatchMessages_run _ _ _ _ _ _ _ Hmax Hlist), Hrefs.
  match goal with |- context [(_ ≫= _) ?w1] => set (w1' := w1) end.
  set (ids := map Some (filter_isDefined (map id refs))).
  assert (length ids ≤ 100)%nat as Hl by (subst ids; now rewrite length_map).
  destruct (getMessagesBatch_is_run (Z.to_nat 4) ids accessToken 0 w1')
    as (r & w2 & Hrun & Hrel); [lia|].
  destruct (BatchRun_first_event _ _ _ _ _ _ Hrel ltac:(lia) Hl) as [post Htr].
  destruct (bind_mret_world _
              (λ parsed, {| page_messages := parsed;
                            page_nextPageToken := nextPageToken response |})
              _ _ _ Hrun) as [r' Hr'].
  exists r', w2, ids, post. split; [exact Hr'|].
  split; [rewrite Htr; subst w1'; cbn [trace]; now rewrite <- app_assoc|].
  split; [reflexivity|]. split; [|split].
  - intros i. subst ids. split.
    + intros Hi. apply list_elem_of_fmap in Hi as (j & [= <-] & Hj).
      apply elem_of_filter_isDefined, list_elem_of_fmap in Hj as (p & Hp & Hin).
      now exists p.
    + intros (p & Hin & Hp). apply list_elem_of_fmap. exists i. split; [done|].
      apply elem_of_filter_isDefined, list_elem_of_fmap. now exists p.
  - subst ids. intros Hi. apply list_elem_of_fmap in Hi as (j & Hj & _).
    discriminate.
  - subst ids. rewrite length_map.
    pose proof (length_filter_isDefined (map id refs)) as Hf.
    now rewrite length_map in Hf.
Qed.

End PageFetch.

Section PageLoop.
Context `{Ext : Externals}.

(** X12: the loop is a [do ... while]: one page is fetched even when
    [maxResults] is zero or negative, and then the call returns that
    page. *)
Theorem queryBatchMessagesPages_fetches_one_page fuel accessToken query
    maxResults (w : World) page w1 :
  maxResults ≤ 0 →
  queryBatchMessages accessToken (Some query) undefined undefined w
    = Some (Ok page, w1) →
  queryBatchMessagesPages (S fuel) accessToken query maxResults w
  = Some (Ok (page_messages page), w1).
Proof.
  intros Hmax Hpage. unfold queryBatchMessagesPages.
  rewrite (queryBatchMessagesPages_loop_S _ _ _ _ _ _ _ _ _ Hpage).
  destruct (Z.ltb_spec (Z.of_nat (length ([] ++ page_messages page))) maxResults)
    as [Hlt|Hge]; [lia|].
  now rewrite andb_false_r.
Qed.

Lemma PagesRun_last_page accessToken query maxResults acc pageToken
    (w : World) res w' n :
  PagesRun accessToken query maxResults acc pageToken w res w' n →
  ∃ before page lastToken wl,
    queryBatchMessages accessToken (Some query) undefined lastToken wl
      = Some (Ok page, w')
    ∧ res = before ++ page_messages page
    ∧ acc `prefix_of` before
    ∧ (before = acc ∨ Z.of_nat (length before) < maxResults).
Proof.
  induction 1 as [acc pageToken w page w1 Hpage Hstop
                 |acc pageToken w page w1 res w2 n Hpage Ht Hlt Hrest IH].
  - exists acc, page, pageToken, w. repeat split; [done|done|now left].
  - destruct IH as (before & last & lastToken & wl & Hlast & -> & Hpre & Hcount).
    exists before, last, lastToken, wl. repeat split; [done| |].
    + etrans; [|exact Hpre]. now apply prefix_app_r.
    + right. destruct Hcount as [->|Hc]; [exact Hlt|exact Hc].
Qed.

(** X13: [maxResults] is exceeded by at most the last page: what was
    accumulated before the last page fetched is either nothing or fewer
    than [maxResults] messages. *)
Theorem queryBatchMessagesPages_overshoot fuel accessToken query maxResults
    (w : World) res w' :
  queryBatchMessagesPages fuel accessToken query maxResults w
    = Some (Ok res, w') →
  ∃ before page lastToken wl,
    queryBatchMessages accessToken (Some query) undefined lastToken wl
      = Some (Ok page, w')
    ∧ res = before ++ page_messages page
    ∧ (before = [] ∨ Z.of_nat (length before) < maxResults).
Proof.
  intros Hrun.
  destruct (queryBatchMessagesPages_loop_sound _ _ _ _ _ _ _ _ _ Hrun)
    as (n & _ & Hpr).
  destruct (PagesRun_last_page _ _ _ _ _ _ _ _ _ Hpr)
    as (before & page & lastToken & wl & Hlast & Hres & _ & Hcount).
  now exists before, page, lastToken, wl.
Qed.

(** X14: a failure while fetching a later page makes the whole call throw:
    the messages of the pages fetched before it are not returned. *)
Theorem queryBatchMessagesPages_page_error fuel accessToken query maxResults
    (w : World) page w1 e w2 :
  queryBatchMessages accessToken (Some query) undefined undefined w
    = Some (Ok page, w1) →
  truthy (page_nextPageToken page) = true →
  Z.of_nat (length (page_messages page)) < maxResults →
  queryBatchMessages accessToken (Some query) undefined
    (page_nextPageToken page) w1 = Some (Throw e, w2) →
  queryBatchMessagesPages (S (S fuel)) accessToken query maxResults w
  = Some (Throw e, w2).
Proof.
  intros Hpage Ht Hlt Hnext. unfold queryBatchMessagesPages.
  rewrite (queryBatchMessagesPages_loop_S _ _ _ _ _ _ _ _ _ Hpage), Ht.
  cbn [app]. replace (_ <? _) with true by lia. cbn [andb].
  cbn [queryBatchMessagesPages_loop].
  now erewrite bind_Throw by exact Hnext.
Qed.

End PageLoop.

(** * Further properties of the sender history *)

Section HistoryRequests.
Context `{Ext : Externals}.

(** X15: an entry that comes back without an id is taken for an earlier
    message, [undefined !== options.messageId] being true: the answer is
    then [true] whatever the other entries are. *)
Theorem hasPreviousCommunicationWithSender_entry_without_id options (w : World)
    incomingEmails rm1 outgoingEmails rm2 p :
  users_messages_list
    (incoming_request (from options) (dateInSeconds (date options))) (remote w)
    = (Ok incomingEmails, rm1) →
  users_messages_list
    (outgoing_request (from options) (dateInSeconds (date options))) rm1
    = (Ok outgoingEmails, rm2) →
  p ∈ default [] (messages incomingEmails)
      ++ default [] (messages outgoingEmails) →
  id p = None →
  hasPreviousCommunicationWithSender options w
  = Some (Ok true,
          mkWorld rm2 (trace w ++
            [EvList (incoming_request (from options) (dateInSeconds (date options)));
             EvList (outgoing_request (from options) (dateInSeconds (date options)))])).
Proof.
  intros Hin Hout Hp Hid.
  rewrite (hasPreviousCommunicationWithSender_run _ _ _ _ _ _ Hin Hout).
  do 3 f_equal. apply existsb_exists. exists p.
  split; [now apply list_elem_of_In|]. now rewrite Hid.
Qed.

(** X16: both searches are always issued, the incoming one first, even
    when the incoming one fails.  When one of them alone fails the call
    throws its error; when both fail the call throws the error of one of
    the two. *)
Theorem hasPreviousCommunicationWithSender_two_requests options (w : World) :
  ∃ r w',
    hasPreviousCommunicationWithSender options w = Some (r, w')
    ∧ trace w' = trace w ++
        [EvList (incoming_request (from options) (dateInSeconds (date options)));
         EvList (outgoing_request (from options) (dateInSeconds (date options)))]
    ∧ (∀ r1 rm r2 rm',
         users_messages_list
           (incoming_request (from options) (dateInSeconds (date options)))
           (remote w) = (r1, rm) →
         users_messages_list
           (outgoing_request (from options) (dateInSeconds (date options))) rm
           = (r2, rm') →
         match r1, r2 with
         | Ok _, Ok _ => ∃ hasPreviousEmail, r = Ok hasPreviousEmail
         | Throw e, Ok _ => r = Throw e
         | Ok _, Throw e => r = Throw e
         | Throw e1, Throw e2 => r = Throw e1 ∨ r = Throw e2
         end).
Proof.
  destruct (users_messages_list
              (incoming_request (from options) (dateInSeconds (date options)))
              (remote w)) as [r1 rm1] eqn:Hin.
  destruct (users_messages_list
              (outgoing_request (from options) (dateInSeconds (date options)))
              rm1) as [r2 rm2] eqn:Hout.
  unfold hasPreviousCommunicationWithSender, findPreviousEmailsWithSender.
  unfold mbind, M_bind, Promise_all2.
  erewrite list_call_run by exact Hin. cbn [remote].
  erewrite list_call_run by exact Hout. cbn [remote trace].
  rewrite <- app_assoc. cbn [app].
  destruct r1 as [incomingEmails|e1], r2 as [outgoingEmails|e2];
    eexists _, _; (split; [reflexivity|]); (split; [reflexivity|]);
    intros r1' rm r2' rm' [= <- <-] Hout'; rewrite Hout in Hout';
    injection Hout' as <- <-; eauto.
Qed.

(** X17: whatever the sender looks like, the domain variant issues the same
    two searches, on one term: the sender itself or the domain extracted
    from it, and the sender itself when no domain could be extracted. *)
Theorem hasPreviousCommunicationsWithSenderOrDomain_two_requests options
    (w : World) :
  ∃ r w' term,
    hasPreviousCommunicationsWithSenderOrDomain options w = Some (r, w')
    ∧ trace w' = trace w ++
        [EvList (incoming_request term (dateInSeconds (date options)));
         EvList (outgoing_request term (dateInSeconds (date options)))]
    ∧ (term = from options
       ∨ extractDomainFromEmail (from options) = Some term)
    ∧ (truthy (extractDomainFromEmail (from options)) = false →
       term = from options).
Proof.
  unfold hasPreviousCommunicationsWithSenderOrDomain.
  destruct (truthy (extractDomainFromEmail (from options))) eqn:Ht; cbn [negb].
  - destruct (extractDomainFromEmail (from options)) as [domain|] eqn:Hd;
      [|discriminate].
    match goal with |- context [hasPreviousCommunicationWithSender ?o w] =>
      destruct (hasPreviousCommunicationWithSender_requests o w)
        as (r & w' & Hrun & Htr) end.
    cbn [from date] in Htr.
    eexists r, w', _. split; [exact Hrun|]. split; [exact Htr|].
    split; [|discriminate].
    cbn [default from_option]. unfold searchTerm.
    destruct (PUBLIC_DOMAINS_has _); [now left|now right].
  - destruct (hasPreviousCommunicationWithSender_requests options w)
      as (r & w' & Hrun & Htr).
    exists r, w', (from options). split; [exact Hrun|]. split; [exact Htr|].
    split; [now left|done].
Qed.

End HistoryRequests.

(** * Lookup by RFC 822 Message-ID *)

Section LookupLaws.
Import Lookup.
Context `{Get : GetExternals}.

Lemma strip_angle_brackets_app a b :
  strip_angle_brackets (a +:+ b)
  = strip_angle_brackets a +:+ strip_angle_brackets b.
Proof.
  induction a as [|c a IH]; [done|].
  change (String c a +:+ b) with (String c (a +:+ b)).
  cbn [strip_angle_brackets].
  destruct (Ascii.eqb c "<" || Ascii.eqb c ">"); [exact IH|].
  change (String c (strip_angle_brackets a) +:+ strip_angle_brackets b)
    with (String c (strip_angle_brackets a +:+ strip_angle_brackets b)).
  now rewrite IH.
Qed.

Lemma string_append_empty s : s +:+ "" = s.
Proof.
  induction s as [|c s IH]; [done|].
  change (String c s +:+ "") with (String c (s +:+ "")). now rewrite IH.
Qed.

Lemma strip_angle_brackets_clean s ch :
  In ch (String.list_ascii_of_string (strip_angle_brackets s)) →
  In ch (String.list_ascii_of_string s) ∧ ch ≠ "<"%char ∧ ch ≠ ">"%char.
Proof.
  induction s as [|c s IH]; [done|]. cbn.
  destruct (Ascii.eqb c "<") eqn:Hlt; cbn [orb].
  { intros Hin. destruct (IH Hin) as (? & ? & ?). auto. }
  destruct (Ascii.eqb c ">") eqn:Hgt.
  { intros Hin. destruct (IH Hin) as (? & ? & ?). auto. }
  cbn. intros [<-|Hin].
  - apply Ascii.eqb_neq in Hlt, Hgt. auto.
  - destruct (IH Hin) as (? & ? & ?). auto.
Qed.

Lemma strip_angle_brackets_id s :
  (∀ ch, In ch (String.list_ascii_of_string s) → ch ≠ "<"%char ∧ ch ≠ ">"%char) →
  strip_angle_brackets s = s.
Proof.
  induction s as [|c s IH]; [done|]. intros Hs. cbn.
  destruct (Hs c) as [Hlt Hgt]; [now left|].
  apply Ascii.eqb_neq in Hlt, Hgt. rewrite Hlt, Hgt. cbn.
  rewrite IH; [done|]. intros ch Hch. apply Hs. now right.
Qed.

Lemma getMessageByRfc822Id_list rfc822MessageId (w : LookupWorld) r rm :
  users_messages_list
    (rfc822_request (strip_angle_brackets rfc822MessageId)) (lk_remote w)
    = (r, rm) →
  lk_call (LkList (rfc822_request (strip_angle_brackets rfc822MessageId)))
    (users_messages_list
       (rfc822_request (strip_angle_brackets rfc822MessageId))) w
  = (r, mkLookupWorld rm
          (lk_trace w ++
             [LkList (rfc822_request (strip_angle_brackets rfc822MessageId))])).
Proof. intros Hl. unfold lk_call. now rewrite Hl. Qed.

(** X18: the Message-ID is searched without its angle brackets: the query
    is [rfc822msgid:] followed by the id with every [<] and [>] removed, so
    an id and the same id wrapped in [<...>] give the same search, and an
    id without brackets is searched as it is. *)
Theorem getMessageByRfc822Id_query rfc822MessageId (w : LookupWorld) :
  ∃ r w' cleanMessageId post,
    getMessageByRfc822Id rfc822MessageId w = (r, w')
    ∧ lk_trace w' = lk_trace w ++
        LkList {| userId := "me"; lp_maxResults := Some 1;
                  q := Some ("rfc822msgid:" +:+ cleanMessageId);
                  lp_pageToken := undefined; labelIds := undefined |} :: post
    ∧ (∀ ch, In ch (String.list_ascii_of_string cleanMessageId) →
             In ch (String.list_ascii_of_string rfc822MessageId)
             ∧ ch ≠ "<"%char ∧ ch ≠ ">"%char)
    ∧ strip_angle_brackets ("<" +:+ rfc822MessageId +:+ ">") = cleanMessageId
    ∧ ((∀ ch, In ch (String.list_ascii_of_string rfc822MessageId) →
              ch ≠ "<"%char ∧ ch ≠ ">"%char) →
       cleanMessageId = rfc822MessageId).
Proof.
  assert (∃ r w' post,
            getMessageByRfc822Id rfc822MessageId w = (r, w')
            ∧ lk_trace w' = lk_trace w ++
                LkList (rfc822_request (strip_angle_brackets rfc822MessageId))
                :: post)
    as (r & w' & post & Hrun & Htr).
  { unfold getMessageByRfc822Id.
    destruct (users_messages_list
                (rfc822_request (strip_angle_brackets rfc822MessageId))
                (lk_remote w)) as [[response|e] rm] eqn:Hl.
    2:{ unfold mbind, L_bind.
        rewrite (getMessageByRfc822Id_list _ _ _ _ Hl).
        now eexists _, _, []. }
    unfold mbind at 1, L_bind at 1.
    rewrite (getMessageByRfc822Id_list _ _ _ _ Hl). cbv zeta.
    destruct (first_message (messages response) ≫= id) as [mid|].
    - destruct (String.eqb mid "").
      + eexists _, _, _. split; [reflexivity|]. cbn.
        rewrite <- app_assoc. reflexivity.
      + unfold mbind, L_bind, getMessage, lk_call. cbn [lk_remote lk_trace].
        destruct (users_messages_get mid None rm) as [[m|e] rm'];
          eexists _, _, _; (split; [reflexivity|]); cbn;
          rewrite <- app_assoc; reflexivity.
    - eexists _, _, _. split; [reflexivity|]. cbn.
      rewrite <- app_assoc. reflexivity. }
  exists r, w', (strip_angle_brackets rfc822MessageId), post.
  split; [exact Hrun|]. split; [exact Htr|].
  split; [apply strip_angle_brackets_clean|]. split.
  - rewrite !strip_angle_brackets_app.
    change (strip_angle_brackets "<") with "".
    change (strip_angle_brackets ">") with "".
    now rewrite string_append_empty.
  - apply strip_angle_brackets_id.
Qed.

(** X19: nothing is fetched unless the search returns a first entry with a
    non-empty id.  When the search fails the call throws its error; when it
    returns no [messages], an empty array, or a first entry whose id is
    missing or empty, the call logs the Message-ID as it was given and
    returns [null]. *)
Theorem getMessageByRfc822Id_not_found rfc822MessageId (w : LookupWorld) :
  (∀ e rm,
     users_messages_list
       (rfc822_request (strip_angle_brackets rfc822MessageId)) (lk_remote w)
       = (Throw e, rm) →
     getMessageByRfc822Id rfc822MessageId w
     = (Throw e,
        mkLookupWorld rm
          (lk_trace w ++
             [LkList (rfc822_request (strip_angle_brackets rfc822MessageId))])))
  ∧ (∀ response rm,
     users_messages_list
       (rfc822_request (strip_angle_brackets rfc822MessageId)) (lk_remote w)
       = (Ok response, rm) →
     truthy (first_message (messages response) ≫= id) = false →
     getMessageByRfc822Id rfc822MessageId w
     = (Ok None,
        mkLookupWorld rm
          (lk_trace w ++
             [LkList (rfc822_request (strip_angle_brackets rfc822MessageId));
              LkLogError "No message found for RFC822 Message-ID"
                rfc822MessageId]))).
Proof.
  split.
  - intros e rm Hl. unfold getMessageByRfc822Id, mbind, L_bind.
    now rewrite (getMessageByRfc822Id_list _ _ _ _ Hl).
  - intros response rm Hl Hfalsy.
    unfold getMessageByRfc822Id. unfold mbind at 1, L_bind at 1.
    rewrite (getMessageByRfc822Id_list _ _ _ _ Hl). cbv zeta.
    destruct (first_message (messages response) ≫= id) as [mid|]; cbn in Hfalsy.
    + apply negb_false_iff in Hfalsy. rewrite Hfalsy.
      unfold mbind, L_bind, lk_log_error, mret, L_ret. cbn [lk_remote lk_trace].
      now rewrite <- app_assoc.
    + unfold mbind, L_bind, lk_log_error, mret, L_ret. cbn [lk_remote lk_trace].
      now rewrite <- app_assoc.
Qed.

(** X20: when the search returns entries, only the first one counts: its
    id, when not empty, is fetched with no [format], and the call returns
    that message, or throws the error of the fetch; the entries after the
    first are not looked at. *)
Theorem getMessageByRfc822Id_fetches_first rfc822MessageId (w : LookupWorld)
    response rm first others messageId r rm' :
  users_messages_list
    (rfc822_request (strip_angle_brackets rfc822MessageId)) (lk_remote w)
    = (Ok response, rm) →
  messages response = Some (first :: others) →
  id first = Some messageId → messageId ≠ "" →
  users_messages_get messageId None rm = (r, rm') →
  getMessageByRfc822Id rfc822MessageId w
  = (match r with Ok found => Ok (Some found) | Throw e => Throw e end,
     mkLookupWorld rm'
       (lk_trace w ++
          [LkList (rfc822_request (strip_angle_brackets rfc822MessageId));
           LkGet messageId None])).
Proof.
  intros Hl Hms Hid Hne Hget.
  unfold getMessageByRfc822Id. unfold mbind at 1, L_bind at 1.
  rewrite (getMessageByRfc822Id_list _ _ _ _ Hl). cbv zeta.
  rewrite Hms. cbn [first_message mbind option_bind]. rewrite Hid.
  apply String.eqb_neq in Hne. rewrite Hne.
  unfold mbind, L_bind, getMessage, lk_call. cbn [lk_remote lk_trace].
  rewrite Hget. destruct r; cbn; rewrite <- ?app_assoc; reflexivity.
Qed.

End LookupLaws.

(** * Delivered and abandoned ids in the scripted mailbox *)

Section Delivery.
Variable fails : nat → MessageId → bool.

Lemma NoDup_delivered attempts : ∀ n ids,
  NoDup ids → NoDup (Sim.delivered fails attempts n ids).
Proof.
  induction attempts as [|k IH]; intros n ids Hnd; cbn [Sim.delivered].
  - apply NoDup_nil_2.
  - pose proof (elem_of_bad fails n ids) as Hbad.
    pose proof (NoDup_Set_add_all (filter (λ i, fails n i = true) ids) []
                  (NoDup_nil_2 (A:=MessageId))) as Hndbad.
    destruct (Set_add_all (filter (λ i, fails n i = true) ids) [])
      as [|b bad] eqn:Hb.
    + now apply NoDup_filter.
    + apply NoDup_app. split; [now apply NoDup_filter|]. split; [|now apply IH].
      intros x Hgood Hlater.
      apply list_elem_of_filter in Hgood as [Hok _].
      apply elem_of_delivered in Hlater as [Hin _].
      apply Hbad in Hin as [_ Hfail]. congruence.
Qed.

Lemma delivered_or_abandoned attempts : ∀ n ids i,
  i ∈ ids →
  ((i ∈ Sim.delivered fails attempts n ids)
   ∧ (i ∉ Sim.abandoned fails attempts n ids))
  ∨ ((i ∉ Sim.delivered fails attempts n ids)
     ∧ (i ∈ Sim.abandoned fails attempts n ids)).
Proof.
  induction attempts as [|k IH]; intros n ids i Hin;
    cbn [Sim.delivered Sim.abandoned].
  - right. split; [apply not_elem_of_nil|exact Hin].
  - pose proof (elem_of_bad fails n ids i) as Hbad.
    destruct (Set_add_all (filter (λ i, fails n i = true) ids) [])
      as [|b bad] eqn:Hb.
    + left. split; [|apply not_elem_of_nil].
      apply list_elem_of_filter. split; [|exact Hin].
      destruct (fails n i) eqn:Hf; [|done].
      exfalso. eapply not_elem_of_nil, Hbad. eauto.
    + destruct (fails n i) eqn:Hf.
      * assert (i ∈ b :: bad) as Hib by (apply Hbad; auto).
        destruct (IH (S n) (b :: bad) i Hib) as [[Hd Ha]|[Hd Ha]].
        -- left. split; [|exact Ha]. apply elem_of_app. now right.
        -- right. split; [|exact Ha]. intros Hx.
           apply elem_of_app in Hx as [Hx|Hx]; [|now apply Hd].
           apply list_elem_of_filter in Hx as [Hx _]. congruence.
      * left. split.
        -- apply elem_of_app. left. now apply list_elem_of_filter.
        -- intros Ha. apply elem_of_abandoned in Ha as [Hx _].
           apply Hbad in Hx as [_ Hx]. congruence.
Qed.

End Delivery.

(** X21: against the scripted mailbox, distinct ids are delivered at most
    once each across all the retries: the result is the image of a list of
    delivered ids that has no duplicate and holds requested ids only. *)
Theorem getMessagesBatch_delivers_once
    (Raw Parsed : Type) (parse : Raw → Parsed) content fails
    messageIds accessToken (w : @World (Sim.externals parse content fails)) :
  (length messageIds ≤ 100)%nat → NoDup messageIds →
  ∃ delivered w',
    getMessagesBatch messageIds accessToken 0 w
    = Some (Ok (map (λ i, parse (content i)) delivered), w')
    ∧ NoDup delivered
    ∧ delivered ⊆ messageIds
    ∧ (length delivered ≤ length messageIds)%nat.
Proof.
  intros Hlen Hnd.
  destruct (sim_run parse content fails 4 (Sim.served (remote w)) messageIds
              accessToken w eq_refl Hlen) as (w' & added & Hrun & _).
  exists (Sim.delivered fails 4 (Sim.served (remote w)) messageIds), w'.
  split; [exact Hrun|].
  assert (NoDup (Sim.delivered fails 4 (Sim.served (remote w)) messageIds))
    as Hndd by (now apply NoDup_delivered).
  assert (Sim.delivered fails 4 (Sim.served (remote w)) messageIds ⊆ messageIds)
    as Hsub by (intros i Hi; now apply elem_of_delivered in Hi as [Hi _]).
  split; [exact Hndd|]. split; [exact Hsub|].
  apply submseteq_length, NoDup_submseteq; [exact Hndd|exact Hsub].
Qed.

(** X22: against the scripted mailbox every requested id ends in exactly
    one of two places: delivered in the result, or abandoned; and when ids
    are abandoned the last entry of the trace is the ["Too many retries"]
    log carrying exactly the abandoned ids and the counter 4. *)
Theorem getMessagesBatch_delivered_or_abandoned
    (Raw Parsed : Type) (parse : Raw → Parsed) content fails
    messageIds accessToken (w : @World (Sim.externals parse content fails)) :
  (length messageIds ≤ 100)%nat →
  ∃ delivered abandoned w' added,
    getMessagesBatch messageIds accessToken 0 w
    = Some (Ok (map (λ i, parse (content i)) delivered), w')
    ∧ trace w' = trace w ++ added
    ∧ (∀ i, i ∈ messageIds →
            ((i ∈ delivered) ∧ (i ∉ abandoned))
            ∨ ((i ∉ delivered) ∧ (i ∈ abandoned)))
    ∧ (∀ i, (i ∈ abandoned)
            ↔ (i ∈ messageIds
               ∧ ∀ j, (j < 4)%nat →
                      fails (Sim.served (remote w) + j)%nat i = true))
    ∧ (abandoned ≠ [] →
       ∃ before, added = before ++ [EvLog LevelError "Too many retries"
                                      (RetryFields abandoned 4)]).
Proof.
  intros Hlen. set (n := Sim.served (remote w)).
  destruct (sim_run parse content fails 4 n messageIds accessToken w eq_refl Hlen)
    as (w' & added & Hrun & Htr & _ & Hab).
  exists (Sim.delivered fails 4 n messageIds),
         (Sim.abandoned fails 4 n messageIds), w', added.
  split; [exact Hrun|]. split; [exact Htr|].
  split; [intros i Hi; now apply delivered_or_abandoned|].
  split; [|exact Hab].
  intros i. rewrite elem_of_abandoned. split.
  - intros [Hin Hall]. split; [done|]. intros j Hj. apply Hall. lia.
  - intros [Hin Hall]. split; [done|]. intros j Hj.
    replace j with (n + (j - n))%nat by lia. apply Hall. lia.
Qed.

(** * Worked instances of the further properties *)

Lemma getMessagesBatch_empty_list_is_requested_witness :
  @getMessagesBatch Sim.plain [] "token" 0 (Sim.start [])
  = Some (Ok [], @mkWorld Sim.plain (Sim.mkState 1 [])
                   [EvGetBatch [] batch_endpoint "token"]).
Proof.
  assert (0 ≤ 3) as Hrc by lia.
  apply (proj2 (@getMessagesBatch_empty_list_is_requested Sim.plain "token" 0
                  (Sim.start []) Hrc)).
  reflexivity.
Defined.

(** ["a"] arrives, ["b"] is refused, and the retry request fails. *)
Lemma getMessagesBatch_retry_error_drops_parsed_witness :
  ∃ w', @getMessagesBatch Sim.replay [Some "a"; Some "b"] "token" 0
          (Sim.replay_start
             [Ok [BatchMessage (Some "a"); BatchError 503 "Backend Error"];
              Throw (Error "fetch failed")])
        = Some (Throw (Error "fetch failed"), w').
Proof.
  eexists.
  apply (@getMessagesBatch_retry_error_drops_parsed Sim.replay
           [Some "a"; Some "b"] "token" 0
           (Sim.replay_start
              [Ok [BatchMessage (Some "a"); BatchError 503 "Backend Error"];
               Throw (Error "fetch failed")])
           [BatchMessage (Some "a"); BatchError 503 "Backend Error"]
           [Throw (Error "fetch failed")] (Error "fetch failed") []);
    [lia | cbn; lia | reflexivity | vm_compute; discriminate
    | vm_compute; lia | reflexivity].
Defined.


Lemma plain_not_longer :
  ∀ ids endpoint accessToken rm batch rm',
    @getBatch Sim.plain ids endpoint accessToken rm = (Ok batch, rm') →
    (length batch ≤ length ids)%nat.
Proof.
  intros ids endpoint tok rm batch rm' [= <- _]. now rewrite length_map.
Qed.

Lemma getMessagesBatch_result_within_request_witness :
  ∃ r w', @getMessagesBatch Sim.plain [Some "a"; Some "b"] "token" 0
            (Sim.start []) = Some (r, w')
          ∧ ∀ res, r = Ok res → (length res ≤ 2)%nat.
Proof.
  apply (@getMessagesBatch_result_within_request Sim.plain plain_not_longer
           [Some "a"; Some "b"] "token" 0 (Sim.start [])).
Defined.

Lemma getMessagesBatch_requests_only_given_ids_witness :
  ∃ r w' added,
    @getMessagesBatch Sim.plain [Some "a"; Some "b"] "token" 0 (Sim.start [])
    = Some (r, w')
    ∧ trace w' = trace (Sim.start []) ++ added
    ∧ Forall (λ ids, ids ⊆ [Some "a"; Some "b"]) (batch_requests added).
Proof.
  apply (@getMessagesBatch_requests_only_given_ids Sim.plain plain_not_longer
           [Some "a"; Some "b"] "token" 0 (Sim.start [])).
Defined.

(** The replaying transport refuses every list request. *)
Lemma queryBatchMessages_list_error_witness :
  @queryBatchMessages Sim.replay "token" (Some "in:inbox") None None
    (Sim.replay_start [])
  = Some (Throw (Error "fetch failed"),
          @mkWorld Sim.replay [] [EvList (page_request "in:inbox" None)]).
Proof.
  apply (@queryBatchMessages_list_error Sim.replay "token" (Some "in:inbox")
           None None (Sim.replay_start []) (Error "fetch failed") []);
    [cbn; lia | reflexivity].
Defined.

(** A page of 101 entries. *)
Lemma queryBatchMessages_oversized_page_witness :
  @queryBatchMessages Sim.plain "token" (Some "in:inbox") None None
    (Sim.start [Sim.page 0 101 None])
  = Some (Throw (Error "Too many messages. Max 1000"),
          @mkWorld Sim.plain (Sim.mkState 0 [])
            [EvList (page_request "in:inbox" None)]).
Proof.
  apply (@queryBatchMessages_oversized_page Sim.plain "token" (Some "in:inbox")
           None None (Sim.start [Sim.page 0 101 None]) (Sim.page 0 101 None)
           (Sim.mkState 0 []) (Sim.refs 0 101));
    [cbn; lia | reflexivity | reflexivity | vm_compute; lia].
Defined.

(** A page of three entries, the second without an id. *)
Lemma queryBatchMessages_requests_present_ids_witness :
  ∃ r w' post,
    @queryBatchMessages Sim.plain "token" (Some "in:inbox") None None
      (Sim.start [{| messages := Some [mkMessageRef (Some "a"); mkMessageRef None;
                                       mkMessageRef (Some "c")];
                     nextPageToken := None |}])
    = Some (r, w')
    ∧ trace w' = EvList (page_request "in:inbox" None)
                 :: EvGetBatch [Some "a"; Some "c"] batch_endpoint "token" :: post.
Proof.
  assert (default 20 None ≤ 20) as Hmax by (cbn; lia).
  assert (length (@filter_isDefined string
                    (map id [mkMessageRef (Some "a"); mkMessageRef None;
                             mkMessageRef (Some "c")])) ≤ 100)%nat as Hlen
    by (cbn; lia).
  destruct (@queryBatchMessages_requests_present_ids Sim.plain "token"
              (Some "in:inbox") None None
              (Sim.start [{| messages := Some [mkMessageRef (Some "a");
                                               mkMessageRef None;
                                               mkMessageRef (Some "c")];
                             nextPageToken := None |}])
              {| messages := Some [mkMessageRef (Some "a"); mkMessageRef None;
                                   mkMessageRef (Some "c")];
                 nextPageToken := None |}
              (Sim.mkState 0 [])
              [mkMessageRef (Some "a"); mkMessageRef None; mkMessageRef (Some "c")]
              Hmax eq_refl eq_refl Hlen)
    as (r & w' & requested & post & Hrun & Htr & -> & _).
  now exists r, w', post.
Defined.

(** [maxResults = 0] on a mailbox of one page that has a token. *)
Lemma queryBatchMessagesPages_fetches_one_page_witness :
  ∃ w1,
    @queryBatchMessagesPages Sim.plain 5 "token" "in:inbox" 0
      (Sim.start [Sim.page 0 2 (Some "t1"); Sim.page 2 2 None])
    = Some (Ok [Some "0"; Some "1"], w1).
Proof.
  eexists.
  apply (@queryBatchMessagesPages_fetches_one_page Sim.plain 4 "token" "in:inbox"
           0 (Sim.start [Sim.page 0 2 (Some "t1"); Sim.page 2 2 None])
           (@mkPage Sim.plain [Some "0"; Some "1"] (Some "t1")));
    [lia | vm_compute; reflexivity].
Defined.

Lemma queryBatchMessagesPages_overshoot_witness :
  ∃ res w' before page lastToken wl,
    @queryBatchMessagesPages Sim.plain 10 "token" "in:inbox" 45
      (Sim.start [Sim.page 0 20 (Some "t1"); Sim.page 20 20 (Some "t2");
                  Sim.page 40 20 (Some "t3")])
    = Some (Ok res, w')
    ∧ length res = 60%nat
    ∧ @queryBatchMessages Sim.plain "token" (Some "in:inbox") None lastToken wl
      = Some (Ok page, w')
    ∧ res = before ++ page_messages page
    ∧ (before = [] ∨ Z.of_nat (length before) < 45).
Proof.
  assert (∃ res w',
            @queryBatchMessagesPages Sim.plain 10 "token" "in:inbox" 45
              (Sim.start [Sim.page 0 20 (Some "t1"); Sim.page 20 20 (Some "t2");
                          Sim.page 40 20 (Some "t3")])
            = Some (Ok res, w')
            ∧ length res = 60%nat) as (res & w' & Hrun & Hlen)
    by (vm_compute; eexists _, _; split; reflexivity).
  destruct (@queryBatchMessagesPages_overshoot Sim.plain 10 "token" "in:inbox"
              45 _ res w' Hrun)
    as (before & page & lastToken & wl & Hlast & Hres & Hcount).
  now exists res, w', before, page, lastToken, wl.
Defined.

(** The second page comes back with 101 entries and is refused. *)
Lemma queryBatchMessagesPages_page_error_witness :
  ∃ w2,
    @queryBatchMessagesPages Sim.plain 2 "token" "in:inbox" 45
      (Sim.start [Sim.page 0 2 (Some "t1"); Sim.page 2 101 None])
    = Some (Throw (Error "Too many messages. Max 1000"), w2).
Proof.
  eexists.
  eapply (@queryBatchMessagesPages_page_error Sim.plain 0 "token" "in:inbox" 45
            (Sim.start [Sim.page 0 2 (Some "t1"); Sim.page 2 101 None])
            (@mkPage Sim.plain [Some "0"; Some "1"] (Some "t1")));
    [vm_compute; reflexivity | reflexivity | cbn; lia | vm_compute; reflexivity].
Defined.

(** An entry without id among the incoming results. *)
Lemma hasPreviousCommunicationWithSender_entry_without_id_witness :
  ∃ w', @hasPreviousCommunicationWithSender Sim.plain
          (@mkOptions Sim.plain "a@gmail.com" 1700000000%N "cur")
          (Sim.start [{| messages := Some [mkMessageRef (Some "cur");
                                           mkMessageRef None];
                         nextPageToken := None |}])
        = Some (Ok true, w').
Proof.
  eexists.
  apply (@hasPreviousCommunicationWithSender_entry_without_id Sim.plain
           (@mkOptions Sim.plain "a@gmail.com" 1700000000%N "cur")
           (Sim.start [{| messages := Some [mkMessageRef (Some "cur");
                                            mkMessageRef None];
                          nextPageToken := None |}])
           {| messages := Some [mkMessageRef (Some "cur"); mkMessageRef None];
              nextPageToken := None |} (Sim.mkState 0 [])
           {| messages := None; nextPageToken := None |} (Sim.mkState 0 [])
           (mkMessageRef None));
    [reflexivity | reflexivity | apply list_elem_of_In; simpl; tauto | reflexivity].
Defined.

(** No entry comes back for [<abc@mail>]. *)
Lemma getMessageByRfc822Id_not_found_witness :
  @Lookup.getMessageByRfc822Id Sim.plain Lookup.plain_get "<abc@mail>"
    (Lookup.lookup_start [])
  = (Ok None,
     @Lookup.mkLookupWorld Sim.plain (Sim.mkState 0 [])
       [Lookup.LkList (Lookup.rfc822_request "abc@mail");
        Lookup.LkLogError "No message found for RFC822 Message-ID" "<abc@mail>"]).
Proof.
  apply (proj2 (@getMessageByRfc822Id_not_found Sim.plain Lookup.plain_get
                  "<abc@mail>" (Lookup.lookup_start []))
           {| messages := None; nextPageToken := None |} (Sim.mkState 0 []));
    reflexivity.
Defined.

(** Two entries come back; the first is fetched. *)
Lemma getMessageByRfc822Id_fetches_first_witness :
  @Lookup.getMessageByRfc822Id Sim.plain Lookup.plain_get "<abc@mail>"
    (Lookup.lookup_start
       [{| messages := Some [mkMessageRef (Some "m1"); mkMessageRef (Some "m2")];
           nextPageToken := None |}])
  = (Ok (Some (Some "m1")),
     @Lookup.mkLookupWorld Sim.plain (Sim.mkState 0 [])
       [Lookup.LkList (Lookup.rfc822_request "abc@mail");
        Lookup.LkGet "m1" None]).
Proof.
  apply (@getMessageByRfc822Id_fetches_first Sim.plain Lookup.plain_get
           "<abc@mail>"
           (Lookup.lookup_start
              [{| messages := Some [mkMessageRef (Some "m1");
                                    mkMessageRef (Some "m2")];
                  nextPageToken := None |}])
           {| messages := Some [mkMessageRef (Some "m1"); mkMessageRef (Some "m2")];
              nextPageToken := None |} (Sim.mkState 0 [])
           (mkMessageRef (Some "m1")) [mkMessageRef (Some "m2")] "m1"
           (Ok (Some "m1")) (Sim.mkState 0 []));
    [reflexivity | reflexivity | reflexivity | discriminate | reflexivity].
Defined.

(** ["a"], ["b"] and ["c"] on the flaky mailbox. *)
Lemma getMessagesBatch_delivers_once_witness :
  ∃ delivered w',
    @getMessagesBatch Sim.flaky [Some "a"; Some "b"; Some "c"] "token" 0
      Sim.flaky_start
    = Some (Ok delivered, w')
    ∧ NoDup delivered
    ∧ delivered ⊆ [Some "a"; Some "b"; Some "c"].
Proof.
  assert (NoDup [Some "a"; Some "b"; Some "c"]) as Hnd
    by (apply (bool_decide_unpack (NoDup [Some "a"; Some "b"; Some "c"]));
        vm_compute; exact I).
  assert (length [Some "a"; Some "b"; Some "c"] ≤ 100)%nat as Hlen by (cbn; lia).
  destruct (getMessagesBatch_delivers_once MessageId MessageId (λ i, i) (λ i, i)
              Sim.flaky_fails [Some "a"; Some "b"; Some "c"] "token"
              Sim.flaky_start Hlen Hnd)
    as (delivered & w' & Hrun & Hndd & Hsub & _).
  exists delivered, w'. rewrite map_id in Hrun. auto.
Defined.

Lemma getMessagesBatch_delivered_or_abandoned_witness :
  ∃ (delivered abandoned : list MessageId) w',
    @getMessagesBatch Sim.flaky [Some "a"; Some "b"; Some "c"] "token" 0
      Sim.flaky_start
    = Some (Ok delivered, w')
    ∧ (((Some "c" ∈ delivered) ∧ (Some "c" ∉ abandoned))
       ∨ ((Some "c" ∉ delivered) ∧ (Some "c" ∈ abandoned))).
Proof.
  assert (length [Some "a"; Some "b"; Some "c"] ≤ 100)%nat as Hlen by (cbn; lia).
  destruct (getMessagesBatch_delivered_or_abandoned MessageId MessageId
              (λ i, i) (λ i, i) Sim.flaky_fails [Some "a"; Some "b"; Some "c"]
              "token" Sim.flaky_start Hlen)
    as (delivered & abandoned & w' & added & Hrun & _ & Hpart & _).
  exists delivered, abandoned, w'. rewrite map_id in Hrun.
  split; [exact Hrun|]. apply Hpart.
  apply list_elem_of_In. simpl. tauto.
Defined.
